(** * Generators and iterators of [generators/generators.py]

    A shallow embedding of the generator functions and of the [Range]
    iterator class, together with the properties of the lazy pipeline
    that the specification states about them.

    Python's iterator protocol is modelled as a step machine.  An
    iterator object is a private state together with the code that
    resumes it; one resumption either yields a value, raises
    [StopIteration], raises another exception, or makes internal
    progress without reaching a [yield] (a loop iteration of a filtering
    stage that skips its element).  The consumers [next], [list] and
    bounded consumption drive the machine; since a pull on a generator
    need not return (a filter over an unbounded source with no matching
    element), they carry a bound on the number of resumption steps. *)

From stdpp Require Import base option list gmap strings.
From Stdlib Require Import ZArith Lia Ascii.
From Stdlib Require Import PrimFloat SpecFloat FloatOps.

Local Open Scope Z_scope.
#[local] Set Warnings "-register-all".

(** ** The iterator protocol *)

Inductive exn : Type :=
| TypeError (msg : string)
| RuntimeError (msg : string)
| OverflowError (msg : string)
| RecursionError (msg : string).

(** What one resumption of an iterator does. *)
Inductive event (A : Type) : Type :=
| Yield (a : A)        (* reaches [yield a] / [return value] of __next__ *)
| Tau                  (* internal progress, nothing handed to the consumer *)
| StopIteration        (* the exhausted signal *)
| Raise (e : exn).     (* any other exception *)
Arguments Yield {A} a.
Arguments Tau {A}.
Arguments StopIteration {A}.
Arguments Raise {A} e.

(** An iterator object: the type of its private state, the code run
    when it is resumed, and the state it is in. *)
Record iterator (A : Type) : Type := Iterator {
  state : Type;
  resume : state → event A * state;
  frame : state
}.
Arguments Iterator {A state} resume frame.
Arguments state {A} _.
Arguments resume {A} _ _.
Arguments frame {A} _.

(** The same object after its state moved to [s]. *)
Definition at_frame {A} (it : iterator A) (s : state it) : iterator A :=
  Iterator (resume it) s.

(** A generator function's frame: suspended with its locals, or
    finished.  A finished generator raises [StopIteration] on every
    later pull and never touches its upstream again. *)
Inductive gen_state (S : Type) : Type :=
| Suspended (locals : S)
| Finished.
Arguments Suspended {S} locals.
Arguments Finished {S}.

(** Result of a pull, [next(it)]; [rest] is what is left behind (the
    iterator object, or the object store it lives in). *)
Inductive pulled (A T : Type) : Type :=
| Yielded (a : A) (rest : T)
| Exhausted (rest : T)
| Raised (e : exn) (rest : T)
| NoAnswer.            (* the pull did not return within the bound *)
Arguments Yielded {A T} a rest.
Arguments Exhausted {A T} rest.
Arguments Raised {A T} e rest.
Arguments NoAnswer {A T}.

Fixpoint next {A} (fuel : nat) (it : iterator A) : pulled A (iterator A) :=
  match fuel with
  | O => NoAnswer
  | S fuel' =>
      match resume it (frame it) with
      | (Yield a, s) => Yielded a (at_frame it s)
      | (Tau, s) => next fuel' (at_frame it s)
      | (StopIteration, s) => Exhausted (at_frame it s)
      | (Raise e, s) => Raised e (at_frame it s)
      end
  end.

(** Result of draining an iterator, [list(it)]: the loop ends normally
    on [StopIteration]; another exception propagates to the caller. *)
Inductive drained (A : Type) : Type :=
| Done (l : list A)
| Failed (e : exn)
| Diverged.
Arguments Done {A} l.
Arguments Failed {A} e.
Arguments Diverged {A}.

Definition drained_map {A B} (f : list A → list B) (d : drained A) : drained B :=
  match d with
  | Done l => Done (f l)
  | Failed e => Failed e
  | Diverged => Diverged
  end.

(** [list(it)]: pull until [StopIteration]. *)
Fixpoint list_ {A} (fuel : nat) (it : iterator A) : drained A :=
  match fuel with
  | O => Diverged
  | S fuel' =>
      match resume it (frame it) with
      | (Yield a, s) => drained_map (cons a) (list_ fuel' (at_frame it s))
      | (Tau, s) => list_ fuel' (at_frame it s)
      | (StopIteration, _) => Done []
      | (Raise e, _) => Failed e
      end
  end.

(** Bounded consumption, [islice(it, n)] or
    [[next(it) for _ in range(n)]]: up to [n] elements and the iterator
    left behind; it stops early when a pull signals exhaustion, raises,
    or does not return. *)
Fixpoint take_ {A} (fuel : nat) (n : nat) (it : iterator A)
  : list A * iterator A :=
  match n with
  | O => ([], it)
  | S n' =>
      match next fuel it with
      | Yielded a it' =>
          let '(l, it'') := take_ fuel n' it' in (a :: l, it'')
      | Exhausted it' | Raised _ it' => ([], it')
      | NoAnswer => ([], it)
      end
  end.

(** The answer to the pull made after [k] earlier pulls, whatever
    those earlier pulls answered. *)
Fixpoint nth_pull {A} (fuel : nat) (k : nat) (it : iterator A)
  : pulled A (iterator A) :=
  match k with
  | O => next fuel it
  | S k' =>
      match next fuel it with
      | Yielded _ it' | Exhausted it' | Raised _ it' => nth_pull fuel k' it'
      | NoAnswer => NoAnswer
      end
  end.

(** ** Sources *)

(** [iter(lst)] on a list: the built-in list iterator. *)
Definition list_iterator_next {A} (rest : list A) : event A * list A :=
  match rest with
  | x :: rest' => (Yield x, rest')
  | [] => (StopIteration, [])
  end.

Definition iter {A} (lst : list A) : iterator A :=
  Iterator list_iterator_next lst.

(** [count_up_to(max_value)]:
    [count = 1; while count <= max_value: yield count; count += 1]. *)
Definition count_up_to_next (max_value : Z) (g : gen_state Z)
  : event Z * gen_state Z :=
  match g with
  | Suspended count =>
      if count <=? max_value
      then (Yield count, Suspended (count + 1))
      else (StopIteration, Finished)
  | Finished => (StopIteration, Finished)
  end.

Definition count_up_to (max_value : Z) : iterator Z :=
  Iterator (count_up_to_next max_value) (Suspended 1).

(** [fibonacci_generator()]:
    [a, b = 0, 1; while True: yield a; a, b = b, a + b]. *)
Definition fibonacci_next (ab : Z * Z) : event Z * (Z * Z) :=
  let '(a, b) := ab in (Yield a, (b, a + b)).

Definition fibonacci_generator : iterator Z :=
  Iterator fibonacci_next (0, 1).

(** [read_numbers(data)]: [for number in data: yield number]. *)
Definition read_numbers_next (g : gen_state (list Z))
  : event Z * gen_state (list Z) :=
  match g with
  | Suspended (number :: rest) => (Yield number, Suspended rest)
  | Suspended [] => (StopIteration, Finished)
  | Finished => (StopIteration, Finished)
  end.

Definition read_numbers (data : list Z) : iterator Z :=
  Iterator read_numbers_next (Suspended data).

(** ** Pipeline stages *)

(** A filtering stage, [for x in upstream: if p(x): yield x].  The
    stage's frame holds its upstream; [pull] resumes it.  A loop
    iteration whose element fails the test hands nothing to the
    consumer and goes round again. *)
Definition filter_next {A S} (p : A → bool) (pull : S → event A * S)
    (g : gen_state S) : event A * gen_state S :=
  match g with
  | Suspended s =>
      match pull s with
      | (Yield x, s') =>
          if p x then (Yield x, Suspended s') else (Tau, Suspended s')
      | (Tau, s') => (Tau, Suspended s')
      | (StopIteration, _) => (StopIteration, Finished)
      | (Raise e, _) => (Raise e, Finished)
      end
  | Finished => (StopIteration, Finished)
  end.

Definition filter_stage {A} (p : A → bool) (upstream : iterator A) : iterator A :=
  Iterator (filter_next p (resume upstream)) (Suspended (frame upstream)).

(** A mapping stage, [for x in upstream: yield f(x)]. *)
Definition map_next {A B S} (f : A → B) (pull : S → event A * S)
    (g : gen_state S) : event B * gen_state S :=
  match g with
  | Suspended s =>
      match pull s with
      | (Yield x, s') => (Yield (f x), Suspended s')
      | (Tau, s') => (Tau, Suspended s')
      | (StopIteration, _) => (StopIteration, Finished)
      | (Raise e, _) => (Raise e, Finished)
      end
  | Finished => (StopIteration, Finished)
  end.

Definition map_stage {A B} (f : A → B) (upstream : iterator A) : iterator B :=
  Iterator (map_next f (resume upstream)) (Suspended (frame upstream)).

(** [filter_even(numbers)]:
    [for num in numbers: if num % 2 == 0: yield num]. *)
Definition filter_even (numbers : iterator Z) : iterator Z :=
  filter_stage (λ num, num `mod` 2 =? 0) numbers.

(** [square(numbers)]: [for num in numbers: yield num ** 2]. *)
Definition square (numbers : iterator Z) : iterator Z :=
  map_stage (λ num, num ^ 2) numbers.

(** A pure stage is a filter or a map; stages compose by function
    application: [compose [st1; st2] src] is [st2 (st1 src)]. *)
Inductive stage (A : Type) : Type :=
| Filter (p : A → bool)
| Map (f : A → A).
Arguments Filter {A} p.
Arguments Map {A} f.

Definition apply_stage {A} (st : stage A) (upstream : iterator A) : iterator A :=
  match st with
  | Filter p => filter_stage p upstream
  | Map f => map_stage f upstream
  end.

Definition compose {A} (stages : list (stage A)) (source : iterator A)
  : iterator A :=
  foldl (λ it st, apply_stage st it) source stages.

(** The eager counterpart on a concrete list: the comprehensions
    [[x for x in l if p(x)]] and [[f(x) for x in l]]. *)
Definition eager_stage {A} (st : stage A) (l : list A) : list A :=
  match st with
  | Filter p => List.filter p l
  | Map f => List.map f l
  end.

Definition eager {A} (stages : list (stage A)) (l : list A) : list A :=
  foldl (λ l st, eager_stage st l) l stages.


(** ** The [Range] iterator class *)

Record Range_self : Type := {
  self_start : Z;
  self_stop : Z;
  self_step : Z;
  self_current : Z
}.

(** [Range.__init__(self, start, stop=None, step=1)]; [None] for an
    omitted [stop]. *)
Definition Range_init (start : Z) (stop : option Z) (step : Z) : Range_self :=
  match stop with
  | None =>
      {| self_start := 0; self_stop := start;
         self_step := step; self_current := 0 |}
  | Some stop' =>
      {| self_start := start; self_stop := stop';
         self_step := step; self_current := start |}
  end.

(** [Range.__next__(self)]. *)
Definition Range_next (self : Range_self) : event Z * Range_self :=
  if (0 <? self_step self) && (self_stop self <=? self_current self)
     || (self_step self <? 0) && (self_current self <=? self_stop self)
  then (StopIteration, self)
  else (Yield (self_current self),
        {| self_start := self_start self; self_stop := self_stop self;
           self_step := self_step self;
           self_current := self_current self + self_step self |}).

(** A [Range] object; [__iter__] returns the object itself. *)
Definition Range (start : Z) (stop : option Z) (step : Z) : iterator Z :=
  Iterator Range_next (Range_init start stop step).

(** ** The accumulator: a generator driven by [send] *)

(** The generator is written once for any numbers: [zero] is the
    initial total and [add total value] is [total += value], which
    either gives the new total or raises.  [float_add] below is the
    instance the code runs: the total is the float [0.0] and the values
    sent are ints or floats. *)
Section Accumulator.
Context {T V : Type} (zero : T) (add : T → V → exn + T).

(** The frame of [accumulator()]: created and not yet started,
    suspended at [value = yield total], or closed.  The loop is
    [while True], so the generator closes only when an exception leaves
    its body. *)
Inductive acc_frame : Type :=
| Created
| AtYield (total : T)
| Closed.

(** What [g.send(value)] does: it returns the total yielded, raises
    an exception, or raises [StopIteration] (a closed generator). *)
Inductive sent : Type :=
| SendYielded (total : T) (g : acc_frame)
| SendRaised (e : exn) (g : acc_frame)
| SendStopIteration (g : acc_frame).

(** [accumulator()]: calling the generator function runs none of its
    body. *)
Definition accumulator : acc_frame := Created.

(** [g.send(value)]; [None] is Python's [None].  A generator that has
    not started has no [yield] to receive a value: the generator
    protocol rejects a non-[None] send and leaves it not started.
    Otherwise the body runs to the next [yield total]:
    [total = 0.0] on the first entry, and
    [if value is not None: total += value] after a resumption.  An
    exception raised by [total += value] leaves the body and closes
    the generator; a closed generator raises [StopIteration]. *)
Definition send (g : acc_frame) (value : option V) : sent :=
  match g with
  | Created =>
      match value with
      | None => SendYielded zero (AtYield zero)
      | Some _ =>
          SendRaised
            (TypeError "can't send non-None value to a just-started generator")
            Created
      end
  | AtYield total =>
      match value with
      | None => SendYielded total (AtYield total)
      | Some v =>
          match add total v with
          | inr total' => SendYielded total' (AtYield total')
          | inl e => SendRaised e Closed
          end
      end
  | Closed => SendStopIteration Closed
  end.

(** [produce]: [next(g)], which is [g.send(None)]. *)
Definition produce (g : acc_frame) : sent := send g None.

(** [accept(v)]: [g.send(v)] with a number [v]. *)
Definition accept (g : acc_frame) (v : V) : sent := send g (Some v).

(** [accept(v1); ...; accept(vn)], stopping at the first one that
    does not return. *)
Fixpoint accept_all (g : acc_frame) (vs : list V) : sent + acc_frame :=
  match vs with
  | [] => inr g
  | v :: vs' =>
      match accept g v with
      | SendYielded _ g' => accept_all g' vs'
      | failed => inl failed
      end
  end.

End Accumulator.

(** *** The numbers the accumulator adds *)

(** A number sent to the accumulator: a Python int or a float (a
    binary64 value, with its infinities and NaN). *)
Inductive py_number : Type :=
| PyInt (n : Z)
| PyFloat (x : float).

(** [float(n)] for an int [n]: the nearest binary64 value, ties to
    even; [None] when that is out of range, where Python raises
    [OverflowError]. *)
Definition float_of_int (n : Z) : option float :=
  match binary_normalize prec emax n 0 false with
  | S754_infinity _ => None
  | sf => Some (SF2Prim sf)
  end.

(** The float a number stands for in [total += value]. *)
Definition to_float (value : py_number) : option float :=
  match value with
  | PyInt n => float_of_int n
  | PyFloat x => Some x
  end.

(** [total += value] on a float [total]: an int is converted to float
    first, which may raise; the operands are then added as floats,
    which rounds and never raises. *)
Definition float_add (total : float) (value : py_number) : exn + float :=
  match to_float value with
  | Some x => inr (total + x)%float
  | None => inl (OverflowError "int too large to convert to float")
  end.

(** ** [flatten]: delegation with [yield from] *)

(** An element of a nested list: a non-list value or a list. *)
Inductive nested (A : Type) : Type :=
| Item (a : A)
| NestedList (l : list (nested A)).
Arguments Item {A} a.
Arguments NestedList {A} l.

(** [flatten(nested_list)]:
    [for item in nested_list:
       if isinstance(item, list): yield from flatten(item)
       else: yield item].
    The state is the chain of suspended [flatten] frames, innermost
    first, each with the rest of the list its loop runs over.  Entering
    a sub-list pushes a frame; a finished sub-generator returns to the
    frame that delegated to it; the outermost frame finishing ends the
    generator. *)
Definition flatten_next {A} (frames : list (list (nested A)))
  : event A * list (list (nested A)) :=
  match frames with
  | [] => (StopIteration, [])
  | (Item a :: rest) :: callers => (Yield a, rest :: callers)
  | (NestedList l :: rest) :: callers => (Tau, l :: rest :: callers)
  | [] :: [] => (StopIteration, [])
  | [] :: callers => (Tau, callers)
  end.

Definition flatten {A} (nested_list : list (nested A)) : iterator A :=
  Iterator flatten_next [nested_list].

(** The atoms of a nested structure in depth-first, left-to-right
    order. *)
Fixpoint atoms {A} (x : nested A) : list A :=
  match x with
  | Item a => [a]
  | NestedList l =>
      (fix atoms_of (l : list (nested A)) : list A :=
         match l with
         | [] => []
         | y :: l' => atoms y ++ atoms_of l'
         end) l
  end.

Definition atoms_list {A} (l : list (nested A)) : list A :=
  atoms (NestedList l).

(** ** CSV records *)

(** [s.split(',')]: the fields between commas; a string without comma
    is its own single field, the empty string included. *)
Fixpoint split_comma (s : string) : list string :=
  match s with
  | EmptyString => [EmptyString]
  | String c s' =>
      if Ascii.eqb c ","%char
      then EmptyString :: split_comma s'
      else
        match split_comma s' with
        | field :: fields => String c field :: fields
        | [] => [String c EmptyString]
        end
  end.

(** [dict(pairs)]: pairs are inserted in order, so a later pair with
    the same key replaces the earlier value. *)
Definition dict {K V} `{Countable K} (pairs : list (K * V)) : gmap K V :=
  foldl (λ d kv, <[kv.1 := kv.2]> d) ∅ pairs.

(** Where [process_csv_lazily] is in its body: before the header was
    read, or in the loop over the remaining lines. *)
Inductive csv_locals (S : Type) : Type :=
| AtHeader (lines : S)
| AtRows (header : list string) (lines : S).
Arguments AtHeader {S} lines.
Arguments AtRows {S} header lines.

(** [process_csv_lazily(lines)]:
    [try: header = next(lines).split(',')
     except StopIteration: return
     for line in lines:
       values = line.split(',')
       yield dict(zip(header, values))]. *)
Definition process_csv_lazily_next {S} (pull : S → event string * S)
    (g : gen_state (csv_locals S))
  : event (gmap string string) * gen_state (csv_locals S) :=
  match g with
  | Suspended (AtHeader s) =>
      match pull s with
      | (Yield line, s') => (Tau, Suspended (AtRows (split_comma line) s'))
      | (Tau, s') => (Tau, Suspended (AtHeader s'))
      | (StopIteration, _) => (StopIteration, Finished)
      | (Raise e, _) => (Raise e, Finished)
      end
  | Suspended (AtRows header s) =>
      match pull s with
      | (Yield line, s') =>
          let values := split_comma line in
          (Yield (dict (zip header values)), Suspended (AtRows header s'))
      | (Tau, s') => (Tau, Suspended (AtRows header s'))
      | (StopIteration, _) => (StopIteration, Finished)
      | (Raise e, _) => (Raise e, Finished)
      end
  | Finished => (StopIteration, Finished)
  end.

Definition process_csv_lazily (lines : iterator string)
  : iterator (gmap string string) :=
  Iterator (process_csv_lazily_next (resume lines))
           (Suspended (AtHeader (frame lines))).

(** ** Iterator objects in a store *)

(** Iterator objects are mutable: a pull changes the object.  The
    store maps the identity of each live object to its current state;
    calling a generator function allocates a new object, and every
    operation on a handle reads and writes the store. *)
Section Store.
Context {A : Type}.

(** A call [f(args)] of a generator function whose fresh generator is
    [it]. *)
Definition create (it : iterator A) (σ : gmap nat (iterator A))
  : nat * gmap nat (iterator A) :=
  let g := fresh (dom σ) in (g, <[g := it]> σ).

(** One resumption of the object [g]. *)
Definition resume_in (g : nat) (σ : gmap nat (iterator A))
  : event A * gmap nat (iterator A) :=
  match σ !! g with
  | Some it =>
      let '(ev, s) := resume it (frame it) in (ev, <[g := at_frame it s]> σ)
  | None => (Raise (RuntimeError "no such object"), σ)
  end.

(** [next(g)]. *)
Fixpoint next_in (fuel : nat) (g : nat) (σ : gmap nat (iterator A))
  : pulled A (gmap nat (iterator A)) :=
  match fuel with
  | O => NoAnswer
  | S fuel' =>
      match resume_in g σ with
      | (Yield a, σ') => Yielded a σ'
      | (Tau, σ') => next_in fuel' g σ'
      | (StopIteration, σ') => Exhausted σ'
      | (Raise e, σ') => Raised e σ'
      end
  end.

(** [[next(g) for _ in range(n)]], stopping early like [take_]. *)
Fixpoint take_in (fuel : nat) (n : nat) (g : nat) (σ : gmap nat (iterator A))
  : list A * gmap nat (iterator A) :=
  match n with
  | O => ([], σ)
  | S n' =>
      match next_in fuel g σ with
      | Yielded a σ' =>
          let '(l, σ'') := take_in fuel n' g σ' in (a :: l, σ'')
      | Exhausted σ' | Raised _ σ' => ([], σ')
      | NoAnswer => ([], σ)
      end
  end.

(** [list(g)]. *)
Fixpoint list_in (fuel : nat) (g : nat) (σ : gmap nat (iterator A))
  : drained A * gmap nat (iterator A) :=
  match fuel with
  | O => (Diverged, σ)
  | S fuel' =>
      match resume_in g σ with
      | (Yield a, σ') =>
          let '(d, σ'') := list_in fuel' g σ' in (drained_map (cons a) d, σ'')
      | (Tau, σ') => list_in fuel' g σ'
      | (StopIteration, σ') => (Done [], σ')
      | (Raise e, σ') => (Failed e, σ')
      end
  end.

End Store.

(** A run in a store: a generator function is called twice, [n]
    elements are pulled from the first instance and discarded, then the
    first [N] elements are pulled from the second, separate instance.
    Both calls get the same arguments ([read_numbers] the same [data]
    list, which no generator writes to). *)
Definition second_instance_take {A} (make : iterator A)
    (σ : gmap nat (iterator A)) (fuel n N : nat) : list A :=
  let '(g1, σ1) := create make σ in
  let '(g2, σ2) := create make σ1 in
  let '(_, σ3) := take_in fuel n g1 σ2 in
  (take_in fuel N g2 σ3).1.

(** The same pipeline is built twice, each time over a fresh source,
    and both are drained, one after the other. *)
Definition drain_twice {A} (make : iterator A)
    (σ : gmap nat (iterator A)) (fuel : nat) : drained A * drained A :=
  let '(p1, σ1) := create make σ in
  let '(p2, σ2) := create make σ1 in
  let '(r1, σ3) := list_in fuel p1 σ2 in
  let '(r2, _) := list_in fuel p2 σ3 in
  (r1, r2).

(** ** Finite and unbounded sequences *)

(** Every pull on [it], now and later, signals exhaustion. *)
Definition exhausted {A} (it : iterator A) : Prop :=
  ∀ fuel k, ∃ it', nth_pull (S fuel) k it = Exhausted it'.

(** [it] is the finite sequence [l]: draining it ends normally with
    [l], and every pull past the last element signals exhaustion. *)
Definition finite_seq {A} (it : iterator A) (l : list A) : Prop :=
  (∀ k, list_ (S (length l) + k) it = Done l) ∧
  (∀ fuel j, ∃ it', nth_pull (S fuel) (length l + j) it = Exhausted it').

(** [it] is unbounded: for every [n] it can produce [n] elements. *)
Definition unbounded {A} (it : iterator A) : Prop :=
  ∀ n, ∃ fuel, length (take_ fuel n it).1 = n.

(** Some pull on [it], after some bounded consumption, signals
    exhaustion. *)
Definition signals_exhaustion {A} (it : iterator A) : Prop :=
  ∃ fuel n fuel' it', next fuel' (take_ fuel n it).2 = Exhausted it'.

(** The elements yielded within the first [m] resumptions. *)
Fixpoint trace {A} (m : nat) (it : iterator A) : list A :=
  match m with
  | O => []
  | S m' =>
      match resume it (frame it) with
      | (Yield a, s) => a :: trace m' (at_frame it s)
      | (Tau, s) => trace m' (at_frame it s)
      | (StopIteration, _) | (Raise _, _) => []
      end
  end.

(** Within [m] resumptions the iterator stops or raises. *)
Fixpoint ends {A} (m : nat) (it : iterator A) : Prop :=
  match m with
  | O => False
  | S m' =>
      match resume it (frame it) with
      | (Yield _, s) | (Tau, s) => ends m' (at_frame it s)
      | (StopIteration, _) | (Raise _, _) => True
      end
  end.

(** ** Auxiliary measures and invariants *)




(** Over a list iterator the stage's frame only ever holds a list, and
    no resumption raises. *)
Definition csv_pulled_ok
    (r : pulled (gmap string string) (iterator (gmap string string))) : Prop :=
  match r with
  | Yielded _ it' | Exhausted it' =>
      ∃ g, it' = Iterator (process_csv_lazily_next list_iterator_next) g
  | Raised _ _ => False
  | NoAnswer => True
  end.


(** The records of a CSV text given by its lines: none without a
    header line, else one per line after the header. *)
Definition csv_records (lines : list string) : list (gmap string string) :=
  match lines with
  | [] => []
  | header_line :: rows =>
      List.map
        (λ line, dict (zip (split_comma header_line) (split_comma line)))
        rows
  end.

(** ** [chain] *)

(** [chain], called with any number of iterables:
    [for iterable in iterables: yield from iterable].
    The arguments are sequences (lists, strings, tuples), each given by
    its elements.  The frame holds what is left of the sequence being
    delegated to, followed by the sequences still to come. *)
Definition chain_next {A} (g : gen_state (list (list A)))
  : event A * gen_state (list (list A)) :=
  match g with
  | Suspended ((x :: rest) :: others) => (Yield x, Suspended (rest :: others))
  | Suspended ([] :: others) => (Tau, Suspended others)
  | Suspended [] => (StopIteration, Finished)
  | Finished => (StopIteration, Finished)
  end.

Definition chain {A} (iterables : list (list A)) : iterator A :=
  Iterator chain_next (Suspended iterables).

(** ** Reference sequences *)

(** The Fibonacci numbers. *)
Fixpoint fib (n : nat) : Z :=
  match n with
  | O => 0
  | S n' =>
      match n' with
      | O => 1
      | S n'' => fib n'' + fib n'
      end
  end.

(** [start, start + step, ...], [n] terms: the elements of Python's
    [range]. *)
Definition progression (start step : Z) (n : nat) : list Z :=
  (λ i : nat, start + Z.of_nat i * step) <$> seq 0 n.

(** [x] is before [stop] in the direction of [step]. *)
Definition before_stop (step stop x : Z) : Prop :=
  (0 < step ∧ x < stop) ∨ (step < 0 ∧ stop < x).

(** [','.join(fields)]. *)
Fixpoint join_comma (fields : list string) : string :=
  match fields with
  | [] => EmptyString
  | [field] => field
  | field :: fields' => field +:+ String "," (join_comma fields')
  end.

(** The number of commas of a string. *)
Fixpoint comma_count (s : string) : nat :=
  match s with
  | EmptyString => 0
  | String c s' => (if Ascii.eqb c "," then 1 else 0) + comma_count s'
  end%nat.

(** ** Sending a run of values to the accumulator *)

(** [[g.send(value) for value in values]]: the totals the sends
    return, up to the first send that does not return. *)
Fixpoint send_each {T V} (zero : T) (add : T → V → exn + T)
    (g : acc_frame) (values : list (option V)) : list T * acc_frame :=
  match values with
  | [] => ([], g)
  | value :: values' =>
      match send zero add g value with
      | SendYielded total g' =>
          let '(totals, g'') := send_each zero add g' values' in
          (total :: totals, g'')
      | SendRaised _ g' | SendStopIteration g' => ([], g')
      end
  end.

(** ** [flatten] under the interpreter's recursion limit *)





(** * Properties *)

(** ** Unfolding the consumers *)

Lemma list_S {A} fuel (it : iterator A) :
  list_ (S fuel) it
  = match resume it (frame it) with
    | (Yield a, s) => drained_map (cons a) (list_ fuel (at_frame it s))
    | (Tau, s) => list_ fuel (at_frame it s)
    | (StopIteration, _) => Done []
    | (Raise e, _) => Failed e
    end.
Proof. reflexivity. Qed.

Lemma next_S {A} fuel (it : iterator A) :
  next (S fuel) it
  = match resume it (frame it) with
    | (Yield a, s) => Yielded a (at_frame it s)
    | (Tau, s) => next fuel (at_frame it s)
    | (StopIteration, s) => Exhausted (at_frame it s)
    | (Raise e, s) => Raised e (at_frame it s)
    end.
Proof. reflexivity. Qed.

(** *** Draining a stage is the eager transform of draining its upstream *)

Ltac frames := unfold at_frame; cbn [resume state frame].

Section Stages.
Context {A : Type} {S : Type} (pull : S → event A * S).

Lemma list_filter_at (p : A → bool) fuel s :
  list_ fuel (Iterator (filter_next p pull) (Suspended s))
  = drained_map (List.filter p) (list_ fuel (Iterator pull s)).
Proof.
  revert s. induction fuel as [|fuel IH]; intros s; [done|].
  cbn [list_ filter_next resume frame].
  destruct (pull s) as [[x| | |e] s']; cbn [drained_map]; try done.
  2: { frames. apply IH. }
  destruct (p x) eqn:Hp; frames; rewrite (IH s');
    destruct (list_ fuel (Iterator pull s')); cbn [drained_map List.filter];
    rewrite ?Hp; done.
Qed.

Lemma list_map_at {B} (f : A → B) fuel s :
  list_ fuel (Iterator (map_next f pull) (Suspended s))
  = drained_map (List.map f) (list_ fuel (Iterator pull s)).
Proof.
  revert s. induction fuel as [|fuel IH]; intros s; [done|].
  cbn [list_ map_next resume frame].
  destruct (pull s) as [[x| | |e] s']; cbn [drained_map]; try done;
    frames; rewrite (IH s'); [|done].
  by destruct (list_ fuel (Iterator pull s')).
Qed.
End Stages.

Lemma list_apply_stage {A} (st : stage A) fuel (upstream : iterator A) :
  list_ fuel (apply_stage st upstream)
  = drained_map (eager_stage st) (list_ fuel upstream).
Proof.
  destruct upstream as [S pull s].
  destruct st; [apply list_filter_at | apply list_map_at].
Qed.

Lemma list_compose {A} (stages : list (stage A)) fuel (source : iterator A) :
  list_ fuel (compose stages source)
  = drained_map (eager stages) (list_ fuel source).
Proof.
  revert source. induction stages as [|st stages IH]; intros source; cbn.
  - by destruct (list_ fuel source).
  - unfold compose in IH. rewrite IH, list_apply_stage.
    by destruct (list_ fuel source).
Qed.

Lemma list_read_numbers_at data k :
  list_ (S (length data + k)) (Iterator read_numbers_next (Suspended data))
  = Done data.
Proof.
  induction data as [|x data IH]; [done|].
  cbn [length Nat.add]. rewrite list_S.
  cbn [read_numbers_next resume frame]. frames. by rewrite IH.
Qed.

Lemma filter_sublist {A} (p : A → bool) (l : list A) :
  sublist (List.filter p l) l.
Proof.
  induction l as [|x l IH]; cbn; [constructor|].
  destruct (p x); by constructor.
Qed.

(** C1: for every finite input [data] and every composition [stages] of
    pure filter and map stages, draining the lazily composed pipeline
    over [read_numbers(data)] terminates (any bound above [len(data)]
    suffices) and returns exactly the eager transform of [data], in the
    same order; [square(filter_even(...))] is filter-then-map; and the
    output of a filter stage is a subsequence of its input. *)
Theorem lazy_pipeline_refines_eager (data : list Z) (stages : list (stage Z)) :
  (∀ k, list_ (S (length data + k)) (compose stages (read_numbers data))
        = Done (eager stages data)) ∧
  (∀ k, list_ (S (length data + k)) (square (filter_even (read_numbers data)))
        = Done (List.map (λ num, num ^ 2)
                  (List.filter (λ num, num `mod` 2 =? 0) data))) ∧
  (∀ p k, ∃ out,
     list_ (S (length data + k)) (filter_stage p (read_numbers data)) = Done out
     ∧ sublist out data).
Proof.
  assert (Hc : ∀ sts k,
    list_ (S (length data + k)) (compose sts (read_numbers data))
    = Done (eager sts data)).
  { intros sts k. rewrite list_compose. unfold read_numbers.
    by rewrite list_read_numbers_at. }
  split; [exact (Hc stages)|]. split.
  - intros k.
    exact (Hc [Filter (λ num, num `mod` 2 =? 0); Map (λ num, num ^ 2)] k).
  - intros p k. exists (List.filter p data). split.
    + exact (Hc [Filter p] k).
    + apply filter_sublist.
Qed.

(** C2: the demonstration pipeline on [1..10] gives [4, 16, 36, 64, 100]. *)
Theorem demonstrate_pipeline_results :
  list_ 11 (square (filter_even (read_numbers [1; 2; 3; 4; 5; 6; 7; 8; 9; 10])))
  = Done [4; 16; 36; 64; 100].
Proof. reflexivity. Qed.

(** ** The accumulator *)

(** Sending a run of numbers that all convert to float to a started
    accumulator never raises and leaves it suspended with the float
    total. *)
Lemma accept_all_floats (vs : list py_number) (total : float) :
  Forall (λ v, is_Some (to_float v)) vs →
  accept_all 0%float float_add (AtYield total) vs
  = inr (AtYield (foldl PrimFloat.add total (omap to_float vs))).
Proof.
  intros Hvs. revert total.
  induction Hvs as [|v vs [x Hx] _ IH]; intros total; [done|].
  cbn [accept_all accept send omap list_omap]. unfold float_add.
  rewrite Hx. cbn [foldl]. apply IH.
Qed.

(** The first int too large for a float makes its send raise and
    closes the generator. *)
Lemma accept_all_overflow (vs : list py_number) n rest (total : float) :
  Forall (λ v, is_Some (to_float v)) vs → float_of_int n = None →
  accept_all 0%float float_add (AtYield total) (vs ++ PyInt n :: rest)
  = inl (SendRaised (OverflowError "int too large to convert to float")
                    Closed).
Proof.
  intros Hvs Hn. revert total.
  induction Hvs as [|v vs [x Hx] _ IH]; intros total.
  - cbn [app accept_all accept send]. unfold float_add.
    cbn [to_float]. by rewrite Hn.
  - cbn [app accept_all accept send]. unfold float_add at 1.
    rewrite Hx. apply IH.
Qed.

(** C3, as the code has it: the total is a float.  After the first
    [produce], which returns [0.0], and [accept(v1)], ...,
    [accept(vn)] of numbers that all convert to float, none of which
    raises, the next [produce] returns [0.0] with [v1], ..., [vn] added
    in order as floats (an int converted to float first): their sum up
    to float rounding.  An int too large to convert makes its [accept]
    raise [OverflowError], and the generator is closed from then on. *)
Theorem accumulator_produces_float_total :
  (∀ vs : list py_number,
     Forall (λ v, is_Some (to_float v)) vs →
     ∃ g1 g2 g3,
       produce 0%float float_add accumulator = SendYielded 0%float g1 ∧
       accept_all 0%float float_add g1 vs = inr g2 ∧
       produce 0%float float_add g2
       = SendYielded (foldl PrimFloat.add 0%float (omap to_float vs)) g3) ∧
  (∀ (vs : list py_number) n rest,
     Forall (λ v, is_Some (to_float v)) vs → float_of_int n = None →
     ∃ g1,
       produce 0%float float_add accumulator = SendYielded 0%float g1 ∧
       accept_all 0%float float_add g1 (vs ++ PyInt n :: rest)
       = inl (SendRaised (OverflowError "int too large to convert to float")
                         Closed) ∧
       produce 0%float float_add Closed = SendStopIteration Closed).
Proof.
  split.
  - intros vs Hvs.
    exists (AtYield 0%float),
      (AtYield (foldl PrimFloat.add 0%float (omap to_float vs))),
      (AtYield (foldl PrimFloat.add 0%float (omap to_float vs))).
    split; [done|]. split; [by apply accept_all_floats | done].
  - intros vs n rest Hvs Hn. exists (AtYield 0%float).
    split; [done|]. split; [by apply accept_all_overflow | done].
Qed.

Ltac numbers_convert :=
  repeat first
    [ apply Forall_nil_2
    | apply Forall_cons_2;
        [cbv beta; apply (bool_decide_unpack _); vm_compute; exact I|] ].

Lemma accumulator_produces_float_total_witness :
  (∃ g1 g2 g3,
     produce 0%float float_add accumulator = SendYielded 0%float g1 ∧
     accept_all 0%float float_add g1 [PyInt 10; PyInt 20; PyInt 5] = inr g2 ∧
     produce 0%float float_add g2
     = SendYielded
         (foldl PrimFloat.add 0%float
            (omap to_float [PyInt 10; PyInt 20; PyInt 5])) g3) ∧
  foldl PrimFloat.add 0%float (omap to_float [PyInt 10; PyInt 20; PyInt 5])
  = 35%float ∧
  (∃ g1,
     produce 0%float float_add accumulator = SendYielded 0%float g1 ∧
     accept_all 0%float float_add g1 ([PyFloat 1.5] ++ PyInt (10 ^ 400) :: [])
     = inl (SendRaised (OverflowError "int too large to convert to float")
                       Closed) ∧
     produce 0%float float_add Closed = SendStopIteration Closed).
Proof.
  destruct accumulator_produces_float_total as [Htotal Hoverflow].
  split; [|split].
  - apply Htotal. numbers_convert.
  - by vm_compute.
  - apply Hoverflow.
    + numbers_convert.
    + by vm_compute.
Defined.

(** The exact sum is not what the code returns: past [2**53] the float
    total rounds, so after [2**53], [1], [1] the total is still
    [2**53], while the sum [2**53 + 2] is a float of its own; and an
    int such as [10**400] is not folded in at all, its [accept]
    raises. *)
Lemma accumulator_exact_sum_counterexample :
  (∃ g1 g2 g3,
     produce 0%float float_add accumulator = SendYielded 0%float g1 ∧
     accept_all 0%float float_add g1 [PyInt (2 ^ 53); PyInt 1; PyInt 1]
     = inr g2 ∧
     produce 0%float float_add g2 = SendYielded 9007199254740992%float g3) ∧
  float_of_int (2 ^ 53 + 1 + 1) = Some 9007199254740994%float ∧
  9007199254740992%float ≠ 9007199254740994%float ∧
  accept 0%float float_add (AtYield 0%float) (PyInt (10 ^ 400))
  = SendRaised (OverflowError "int too large to convert to float") Closed.
Proof.
  split; [|split; [|split]].
  - exists (AtYield 0%float), (AtYield 9007199254740992%float),
      (AtYield 9007199254740992%float).
    split; [done|]. split; by vm_compute.
  - by vm_compute.
  - intros Heq.
    apply (f_equal (λ x, PrimFloat.eqb x 9007199254740992%float)) in Heq.
    vm_compute in Heq. discriminate.
  - by vm_compute.
Qed.

(** C4: [accept] on an accumulator that has not been started is
    rejected at once with a [TypeError] that says why; the value is not
    folded in: the generator is still not started, and its first
    [produce] still returns zero. *)
Theorem accept_before_first_produce_rejected
    {T V} (zero : T) (add : T → V → exn + T) (v : V) :
  ∃ g,
    accept zero add accumulator v
    = SendRaised
        (TypeError "can't send non-None value to a just-started generator") g ∧
    g = accumulator ∧
    accept_all zero add accumulator [v]
    = inl (SendRaised
        (TypeError "can't send non-None value to a just-started generator") g) ∧
    produce zero add g = SendYielded zero (AtYield zero).
Proof. exists Created. done. Qed.

(** ** [flatten] *)






(** C5: flattening [1, [2, 3, [4, 5]], 6, [7, [8, 9]]] yields
    [1, ..., 9], the atoms in depth-first left-to-right order. *)
Theorem flatten_demo_depth_first :
  let nested_list :=
    [Item 1; NestedList [Item 2; Item 3; NestedList [Item 4; Item 5]];
     Item 6; NestedList [Item 7; NestedList [Item 8; Item 9]]] in
  list_ 20 (flatten nested_list) = Done [1; 2; 3; 4; 5; 6; 7; 8; 9] ∧
  atoms_list nested_list = [1; 2; 3; 4; 5; 6; 7; 8; 9].
Proof. split; reflexivity. Qed.

(** ** CSV records *)

Lemma list_csv_rows {S} (pull : S → event string * S) header fuel s :
  list_ fuel (Iterator (process_csv_lazily_next pull)
                (Suspended (AtRows header s)))
  = drained_map (List.map (λ line, dict (zip header (split_comma line))))
      (list_ fuel (Iterator pull s)).
Proof.
  revert s. induction fuel as [|fuel IH]; intros s; [done|].
  rewrite !list_S. cbn [process_csv_lazily_next resume frame].
  destruct (pull s) as [[line| | |e] s']; cbn [drained_map]; try done;
    frames; rewrite (IH s'); [|done].
  by destruct (list_ fuel (Iterator pull s')).
Qed.

Lemma list_iter {A} (lst : list A) k :
  list_ (S (length lst) + k) (iter lst) = Done lst.
Proof.
  unfold iter. induction lst as [|x lst IH]; [done|].
  cbn [length Nat.add]. rewrite list_S.
  cbn [list_iterator_next resume frame]. frames.
  cbn [Nat.add] in IH. by rewrite IH.
Qed.

(** C9: on a non-empty sequence of lines the first line, split on
    commas, gives the field names, and draining the stage returns, in
    line order, one mapping per subsequent line: the [dict] of the
    field names zipped with that line's comma-separated values. *)
Theorem process_csv_lazily_rows (header_line : string) (rows : list string) k :
  list_ (S (S (length rows)) + k)
        (process_csv_lazily (iter (header_line :: rows)))
  = Done (List.map
            (λ line, dict (zip (split_comma header_line) (split_comma line)))
            rows).
Proof.
  unfold process_csv_lazily, iter. cbn [Nat.add]. rewrite list_S.
  cbn [process_csv_lazily_next list_iterator_next resume frame]. frames.
  rewrite list_csv_rows.
  pose proof (list_iter rows k) as Hrows. unfold iter in Hrows.
  cbn [Nat.add] in Hrows. by rewrite Hrows.
Qed.

(** *** What [dict(zip(header, values))] holds *)

Lemma dict_from_notin {V} (pairs : list (string * V)) (m : gmap string V) name :
  name ∉ pairs.*1 →
  foldl (λ d kv, <[kv.1 := kv.2]> d) m pairs !! name = m !! name.
Proof.
  revert m. induction pairs as [|[k v] pairs IH]; intros m Hnotin; [done|].
  cbn in Hnotin |- *. apply not_elem_of_cons in Hnotin as [Hne Hnotin].
  rewrite IH by done. by rewrite lookup_insert_ne.
Qed.

Lemma zip_fst_notin {V} (header : list string) (values : list V) name :
  name ∉ header → name ∉ (zip header values).*1.
Proof.
  intros Hnotin Hin. apply Hnotin.
  apply list_elem_of_fmap in Hin as [[k v] [-> Hin]].
  by apply elem_of_zip_l in Hin.
Qed.

Lemma dict_from_lookup {V} (header : list string) (values : list V)
    (m : gmap string V) i name :
  NoDup header → header !! i = Some name →
  foldl (λ d kv, <[kv.1 := kv.2]> d) m (zip header values) !! name
  = match values !! i with Some v => Some v | None => m !! name end.
Proof.
  revert values m i.
  induction header as [|h hs IH]; intros values m i Hnd Hi; [done|].
  apply NoDup_cons in Hnd as [Hh Hnd].
  destruct values as [|v vs]; [by destruct i|].
  cbn [zip zip_with foldl fst snd]. destruct i as [|i]; cbn in Hi |- *.
  - injection Hi as ->.
    rewrite dict_from_notin by by apply zip_fst_notin.
    by rewrite lookup_insert_eq.
  - rewrite (IH vs _ i) by done.
    destruct (vs !! i); [done|].
    apply lookup_insert_ne. intros ->.
    apply Hh. by eapply list_elem_of_lookup_2.
Qed.

Lemma dict_from_size_le {V} (pairs : list (string * V)) (m : gmap string V) :
  (size (foldl (λ d kv, <[kv.1 := kv.2]> d) m pairs) ≤ size m + length pairs)%nat.
Proof.
  revert m. induction pairs as [|[k v] pairs IH]; intros m;
    cbn [foldl length fst snd]; [lia|].
  etrans; [apply IH|]. rewrite map_size_insert.
  destruct (m !! k); unfold id; lia.
Qed.

Lemma dict_from_size {V} (header : list string) (values : list V)
    (m : gmap string V) :
  NoDup header → (∀ name, name ∈ header → m !! name = None) →
  size (foldl (λ d kv, <[kv.1 := kv.2]> d) m (zip header values))
  = (size m + min (length header) (length values))%nat.
Proof.
  revert values m.
  induction header as [|h hs IH]; intros values m Hnd Hfresh; [cbn; lia|].
  apply NoDup_cons in Hnd as [Hh Hnd].
  destruct values as [|v vs]; [cbn; lia|].
  cbn [zip zip_with foldl fst snd length]. rewrite IH.
  - rewrite map_size_insert_None by (apply Hfresh; left). cbn. lia.
  - done.
  - intros name Hin. rewrite lookup_insert_ne.
    + apply Hfresh. by right.
    + by intros ->.
Qed.

(** *** The stage never raises *)

Lemma next_csv_ok fuel g :
  csv_pulled_ok
    (next fuel (Iterator (process_csv_lazily_next list_iterator_next) g)).
Proof.
  revert g. induction fuel as [|fuel IH]; intros g; [done|].
  rewrite next_S. cbn [resume frame].
  destruct g as [[[|line lines]|header [|line lines]]|];
    cbn [process_csv_lazily_next list_iterator_next]; frames;
    first [apply IH | cbn; eauto].
Qed.

Lemma nth_pull_csv_ok fuel k g :
  csv_pulled_ok
    (nth_pull fuel k (Iterator (process_csv_lazily_next list_iterator_next) g)).
Proof.
  revert g. induction k as [|k IH]; intros g; cbn [nth_pull].
  - apply next_csv_ok.
  - pose proof (next_csv_ok fuel g) as Hok.
    destruct (next fuel _) as [a it'|it'|e it'|]; cbn in Hok; try done.
    + destruct Hok as [g' ->]. apply IH.
    + destruct Hok as [g' ->]. apply IH.
Qed.

(** Whatever its input iterator does, the stage does the same: it
    ends when the input ends, fails with the exception the input
    raises, and does not return when the input does not. *)
Lemma list_csv_header {S} (pull : S → event string * S) fuel s :
  list_ fuel (Iterator (process_csv_lazily_next pull) (Suspended (AtHeader s)))
  = drained_map csv_records (list_ fuel (Iterator pull s)).
Proof.
  revert s. induction fuel as [|fuel IH]; intros s; [done|].
  rewrite !list_S. cbn [process_csv_lazily_next resume frame].
  destruct (pull s) as [[line| | |e] s']; cbn [drained_map]; try done;
    frames.
  - rewrite list_csv_rows. by destruct (list_ fuel (Iterator pull s')).
  - apply IH.
Qed.

Lemma csv_record_size (header values : list string) :
  (size (dict (zip header values)) ≤ min (length header) (length values))%nat ∧
  (NoDup header →
   size (dict (zip header values)) = min (length header) (length values) ∧
   ∀ i name, header !! i = Some name →
     dict (zip header values) !! name = values !! i).
Proof.
  unfold dict. split.
  - etrans; [apply dict_from_size_le|].
    rewrite map_size_empty, length_zip. lia.
  - intros Hnd. split.
    + rewrite dict_from_size by done. by rewrite map_size_empty.
    + intros i name Hi. rewrite (dict_from_lookup _ _ _ i) by done.
      by destruct (values !! i).
Qed.

(** C10, as the code has it: the stage raises nothing of its own.
    Draining it ends normally whenever draining its input does, with
    the records of the lines read; it fails only with the exception
    its input raises.  Over a list of lines it always ends normally and
    no pull raises; with no line at all it yields the empty sequence.
    The record it yields for a line has at most
    [min(len(header), len(values))] entries, exactly that many when the
    field names are pairwise distinct, in which case the field at
    position [i] maps to the value at position [i] and is absent when
    the line has no such value. *)
Theorem process_csv_lazily_total_truncating :
  (∀ (lines : iterator string) fuel,
     list_ fuel (process_csv_lazily lines)
     = drained_map csv_records (list_ fuel lines)) ∧
  (∀ k, list_ (S k) (process_csv_lazily (iter [])) = Done []) ∧
  (∀ lines : list string,
     (∀ k,
        list_ (S (length lines) + k) (process_csv_lazily (iter lines))
        = Done (csv_records lines)) ∧
     (∀ fuel k e it',
        nth_pull fuel k (process_csv_lazily (iter lines)) ≠ Raised e it')) ∧
  (∀ (header_line : string) (rows : list string) k,
     ∃ records,
       list_ (S (S (length rows)) + k)
             (process_csv_lazily (iter (header_line :: rows)))
       = Done records ∧
       Forall2
         (λ line record,
            (size record
             ≤ min (length (split_comma header_line))
                   (length (split_comma line)))%nat ∧
            (NoDup (split_comma header_line) →
             size record
             = min (length (split_comma header_line))
                   (length (split_comma line)) ∧
             ∀ i name, split_comma header_line !! i = Some name →
               record !! name = split_comma line !! i))
         rows records).
Proof.
  assert (Hlist : ∀ (lines : list string) k,
    list_ (S (length lines) + k) (process_csv_lazily (iter lines))
    = Done (csv_records lines)).
  { intros lines k. unfold process_csv_lazily.
    rewrite list_csv_header.
    change (Iterator (resume (iter lines)) (frame (iter lines)))
      with (iter lines).
    by rewrite list_iter. }
  split; [|split; [|split]].
  - intros [S pull s] fuel. apply list_csv_header.
  - done.
  - intros lines. split; [apply Hlist|].
    intros fuel k e it' Hr.
    pose proof (nth_pull_csv_ok fuel k (Suspended (AtHeader lines))) as Hok.
    unfold process_csv_lazily, iter in Hr. cbn [resume frame state] in Hr.
    by rewrite Hr in Hok.
  - intros header_line rows k. exists (csv_records (header_line :: rows)).
    split.
    { rewrite <- (Hlist (header_line :: rows) k). f_equal. }
    cbn [csv_records]. induction rows as [|line rows IH]; [constructor|].
    cbn [List.map]. constructor; [apply csv_record_size | apply IH].
Qed.

Lemma process_csv_lazily_total_truncating_witness :
  ∃ records,
    list_ 4 (process_csv_lazily
               (iter ["name,age,city"; "Alice,30"; "Bob,25,LA,x"]%string))
    = Done records ∧
    Forall2 (λ line record,
               size record = min 3 (length (split_comma line)))
            ["Alice,30"; "Bob,25,LA,x"]%string records.
Proof.
  destruct (proj2 (proj2 (proj2 process_csv_lazily_total_truncating))
              "name,age,city"%string ["Alice,30"; "Bob,25,LA,x"]%string 0%nat)
    as (records & Hlist & Hrecords).
  exists records. split; [exact Hlist|].
  eapply Forall2_impl; [exact Hrecords|].
  intros line record [_ Hsize]. apply Hsize.
  by apply (bool_decide_unpack _).
Defined.

(** The claim fails in two ways.  The count claimed for every
    mismatching line fails when a field name repeats: with header
    [a,a,b] the line [1,2] yields the single-entry mapping
    [{'a': '2'}], not two entries.  And the stage does raise when its
    input does: only the [StopIteration] of the header read is caught,
    so an input iterator that raises makes the stage raise the same. *)
Lemma csv_entry_count_counterexample :
  let header_line := "a,a,b"%string in
  let line := "1,2"%string in
  (length (split_comma line) ≠ length (split_comma header_line) ∧
   list_ 3 (process_csv_lazily (iter [header_line; line]))
   = Done [{[ "a"%string := "2"%string ]}] ∧
   size ({[ "a"%string := "2"%string ]} : gmap string string)
   ≠ min (length (split_comma header_line)) (length (split_comma line))) ∧
  (∃ it',
     next 1 (process_csv_lazily
               (Iterator (λ _ : unit, (Raise (RuntimeError "read failed"), tt))
                         tt))
     = Raised (RuntimeError "read failed") it').
Proof.
  cbv zeta. split; [split; [by cbn|split]|].
  - vm_compute. reflexivity.
  - vm_compute. lia.
  - eexists. reflexivity.
Qed.

(** ** Instances in a store do not interfere *)

Section StoreFacts.
Context {A : Type}.
Implicit Types (σ : gmap nat (iterator A)) (it : iterator A) (g : nat).

Lemma create_lookup it σ :
  (create it σ).2 !! (create it σ).1 = Some it.
Proof. unfold create; cbn. apply lookup_insert_eq. Qed.

Lemma create_other it σ g :
  is_Some (σ !! g) →
  g ≠ (create it σ).1 ∧ (create it σ).2 !! g = σ !! g.
Proof.
  intros Hg. unfold create; cbn.
  assert (g ≠ fresh (dom σ)) as Hne.
  { intros ->. apply elem_of_dom in Hg. by apply is_fresh in Hg. }
  split; [done|]. by rewrite lookup_insert_ne.
Qed.

Lemma next_in_sim fuel g σ it :
  σ !! g = Some it →
  next_in fuel g σ
  = match next fuel it with
    | Yielded a it' => Yielded a (<[g := it']> σ)
    | Exhausted it' => Exhausted (<[g := it']> σ)
    | Raised e it' => Raised e (<[g := it']> σ)
    | NoAnswer => NoAnswer
    end.
Proof.
  revert σ it. induction fuel as [|fuel IH]; intros σ it Hg; [done|].
  rewrite next_S. cbn [next_in]. unfold resume_in. rewrite Hg.
  destruct (resume it (frame it)) as [[a| | |e] s]; try done.
  rewrite (IH _ (at_frame it s)) by apply lookup_insert_eq.
  destruct (next fuel (at_frame it s)); by rewrite ?insert_insert_eq.
Qed.

Lemma take_in_sim fuel n g σ it :
  σ !! g = Some it →
  take_in fuel n g σ
  = ((take_ fuel n it).1, <[g := (take_ fuel n it).2]> σ).
Proof.
  revert σ it. induction n as [|n IH]; intros σ it Hg.
  - cbn. by rewrite insert_id.
  - cbn [take_in take_]. rewrite (next_in_sim _ _ _ it) by done.
    destruct (next fuel it) as [a it'|it'|e it'|]; try done.
    + rewrite (IH _ it') by apply lookup_insert_eq.
      destruct (take_ fuel n it') as [l it'']. cbn.
      by rewrite insert_insert_eq.
    + cbn. by rewrite insert_id.
Qed.

Lemma list_in_sim fuel g σ it :
  σ !! g = Some it →
  ∃ it', list_in fuel g σ = (list_ fuel it, <[g := it']> σ).
Proof.
  revert σ it. induction fuel as [|fuel IH]; intros σ it Hg.
  - exists it. cbn. by rewrite insert_id.
  - rewrite list_S. cbn [list_in]. unfold resume_in. rewrite Hg.
    destruct (resume it (frame it)) as [[a| | |e] s]; try by eexists.
    + destruct (IH (<[g := at_frame it s]> σ) (at_frame it s)) as [it' ->];
        [apply lookup_insert_eq|].
      exists it'. by rewrite insert_insert_eq.
    + destruct (IH (<[g := at_frame it s]> σ) (at_frame it s)) as [it' ->];
        [apply lookup_insert_eq|].
      exists it'. by rewrite insert_insert_eq.
Qed.

(** What is pulled from a second instance does not depend on the
    store it was created in, nor on what was pulled from the first. *)
Lemma second_instance_take_pure (make : iterator A) σ fuel n N :
  second_instance_take make σ fuel n N = (take_ fuel N make).1.
Proof.
  unfold second_instance_take.
  pose proof (create_lookup make σ) as H1.
  destruct (create make σ) as [g1 σ1]; cbn [fst snd] in H1.
  pose proof (create_lookup make σ1) as H2.
  pose proof (create_other make σ1 g1 (mk_is_Some _ _ H1)) as [Hne H1'].
  destruct (create make σ1) as [g2 σ2]; cbn [fst snd] in H2, Hne, H1'.
  rewrite H1 in H1'.
  rewrite (take_in_sim _ _ _ _ make) by done.
  rewrite (take_in_sim _ _ _ _ make) by by rewrite lookup_insert_ne.
  done.
Qed.

Lemma drain_twice_pure (make : iterator A) σ fuel :
  drain_twice make σ fuel = (list_ fuel make, list_ fuel make).
Proof.
  unfold drain_twice.
  pose proof (create_lookup make σ) as H1.
  destruct (create make σ) as [p1 σ1]; cbn [fst snd] in H1.
  pose proof (create_lookup make σ1) as H2.
  pose proof (create_other make σ1 p1 (mk_is_Some _ _ H1)) as [Hne H1'].
  destruct (create make σ1) as [p2 σ2]; cbn [fst snd] in H2, Hne, H1'.
  rewrite H1 in H1'.
  destruct (list_in_sim fuel p1 σ2 make H1') as [it1 ->].
  destruct (list_in_sim fuel p2 (<[p1 := it1]> σ2) make) as [it2 ->];
    [by rewrite lookup_insert_ne|].
  done.
Qed.

End StoreFacts.

Lemma take_fibonacci fuel N ab :
  length (take_ (S fuel) N (Iterator fibonacci_next ab)).1 = N.
Proof.
  revert ab. induction N as [|N IH]; intros [a b]; [done|].
  cbn [take_]. rewrite next_S. cbn [fibonacci_next resume frame]. frames.
  specialize (IH (b, a + b)).
  destruct (take_ (S fuel) N _) as [l it']. cbn in IH |- *. by rewrite IH.
Qed.

Lemma take_read_numbers fuel N data :
  (take_ (S fuel) N (Iterator read_numbers_next (Suspended data))).1
  = take N data.
Proof.
  revert data. induction N as [|N IH]; intros data; [done|].
  cbn [take_]. rewrite next_S. cbn [resume frame].
  destruct data as [|x data]; cbn [read_numbers_next]; [done|]. frames.
  specialize (IH data).
  destruct (take_ (S fuel) N _) as [l it']. cbn in IH |- *. by rewrite IH.
Qed.

(** C8: whatever store the producer is called in and however many
    elements were pulled from a separate instance of the same producer
    and discarded, the first [N] elements pulled from a fresh instance
    are the same, so two independent runs agree; for
    [fibonacci_generator] these are [N] elements, for [read_numbers]
    they are the first [N] of the data; and the same pipeline composed
    twice over fresh sources drains to the same result, the eager
    transform of the data. *)
Theorem fresh_instances_are_independent :
  (∀ {A} (make : iterator A) σ σ' fuel n n' N,
     second_instance_take make σ fuel n N
     = second_instance_take make σ' fuel n' N) ∧
  (∀ σ fuel n N,
     length (second_instance_take fibonacci_generator σ (S fuel) n N) = N) ∧
  (∀ data σ fuel n N,
     second_instance_take (read_numbers data) σ (S fuel) n N = take N data) ∧
  (∀ (stages : list (stage Z)) data σ k,
     drain_twice (compose stages (read_numbers data)) σ (S (length data + k))
     = (Done (eager stages data), Done (eager stages data))).
Proof.
  split; [|split; [|split]].
  - intros A make σ σ' fuel n n' N.
    by rewrite !second_instance_take_pure.
  - intros σ fuel n N. rewrite second_instance_take_pure.
    apply take_fibonacci.
  - intros data σ fuel n N. rewrite second_instance_take_pure.
    apply take_read_numbers.
  - intros stages data σ k. rewrite drain_twice_pure.
    rewrite list_compose. unfold read_numbers.
    by rewrite list_read_numbers_at.
Qed.

(** ** Exhaustion *)

(** An iterator whose resumption raises [StopIteration] and leaves it
    where it was is exhausted for good: a finished generator, a [Range]
    past its stop. *)
Lemma exhausted_fixpoint {A S} (r : S → event A * S) s :
  r s = (StopIteration, s) → exhausted (Iterator r s).
Proof.
  intros Hr fuel k. exists (Iterator r s).
  induction k as [|k IH]; cbn [nth_pull]; rewrite next_S;
    cbn [resume frame]; rewrite Hr; frames; [done|apply IH].
Qed.

Lemma exhausted_stop {A S} (r : S → event A * S) s s' :
  r s = (StopIteration, s') → exhausted (Iterator r s') →
  exhausted (Iterator r s).
Proof.
  intros Hr Hex fuel [|k]; cbn [nth_pull]; rewrite next_S;
    cbn [resume frame]; rewrite Hr; frames; [by eexists|apply Hex].
Qed.

Lemma finite_seq_nil {A} (it : iterator A) :
  (resume it (frame it)).1 = StopIteration → exhausted it → finite_seq it [].
Proof.
  intros Hr Hex. split.
  - intros k. cbn [length Nat.add]. rewrite list_S.
    by destruct (resume it (frame it)) as [[] ?].
  - intros fuel j. apply Hex.
Qed.

Lemma finite_seq_cons {A S} (r : S → event A * S) s a s' l :
  r s = (Yield a, s') → finite_seq (Iterator r s') l →
  finite_seq (Iterator r s) (a :: l).
Proof.
  intros Hr [Hlist Hpull]. split.
  - intros k. cbn [length Nat.add]. rewrite list_S. cbn [resume frame].
    rewrite Hr. frames. cbn [Nat.add] in Hlist. by rewrite Hlist.
  - intros fuel j. cbn [length Nat.add nth_pull]. rewrite next_S.
    cbn [resume frame]. rewrite Hr. frames. apply Hpull.
Qed.

Lemma count_up_to_next_le max_value count :
  count ≤ max_value →
  count_up_to_next max_value (Suspended count)
  = (Yield count, Suspended (count + 1)).
Proof.
  intros Hle. unfold count_up_to_next.
  by destruct (Z.leb_spec count max_value); [|lia].
Qed.

Lemma count_up_to_next_gt max_value count :
  max_value < count →
  count_up_to_next max_value (Suspended count) = (StopIteration, Finished).
Proof.
  intros Hgt. unfold count_up_to_next.
  by destruct (Z.leb_spec count max_value); [lia|].
Qed.

(** [count_up_to] from [count] on. *)
Lemma count_up_to_finite max_value n count :
  Z.to_nat (max_value + 1 - count) = n →
  finite_seq (Iterator (count_up_to_next max_value) (Suspended count))
             (seqZ count (Z.of_nat n)).
Proof.
  revert count. induction n as [|n IH]; intros count Hn.
  - apply finite_seq_nil.
    + cbn [resume frame]. by rewrite count_up_to_next_gt by lia.
    + eapply exhausted_stop;
        [apply count_up_to_next_gt; lia | by apply exhausted_fixpoint].
  - rewrite seqZ_cons by lia.
    eapply finite_seq_cons.
    + apply count_up_to_next_le. lia.
    + replace (Z.pred (Z.of_nat (S n))) with (Z.of_nat n) by lia.
      replace (Z.succ count) with (count + 1) by lia.
      apply IH. lia.
Qed.

(** A [Range] with a non-zero step is finite: the distance to [stop]
    shrinks with every element. *)
Lemma Range_finite m (self : Range_self) :
  self_step self ≠ 0 →
  (0 < self_step self →
   (Z.to_nat (self_stop self - self_current self) ≤ m)%nat) →
  (self_step self < 0 →
   (Z.to_nat (self_current self - self_stop self) ≤ m)%nat) →
  ∃ l, finite_seq (Iterator Range_next self) l.
Proof.
  revert self. induction m as [|m IH]; intros self Hstep Hpos Hneg;
    destruct (Range_next self) as [ev self'] eqn:Hnext; unfold Range_next in Hnext;
    destruct ((0 <? self_step self) && (self_stop self <=? self_current self)
             || (self_step self <? 0) && (self_current self <=? self_stop self))
      eqn:Hcond;
    injection Hnext as <- <-.
  1, 3: exists []; apply finite_seq_nil;
    [ cbn; unfold Range_next; by rewrite Hcond
    | apply exhausted_fixpoint; unfold Range_next; by rewrite Hcond ].
  - exfalso.
    apply orb_false_iff in Hcond as [H1 H2].
    apply andb_false_iff in H1, H2.
    destruct (Z.lt_total (self_step self) 0) as [Hlt|[Heq|Hgt]]; [|done|].
    + specialize (Hneg Hlt). destruct H2 as [H2|H2]; lia.
    + specialize (Hpos Hgt). destruct H1 as [H1|H1]; lia.
  - apply orb_false_iff in Hcond as [H1 H2].
    apply andb_false_iff in H1, H2.
    destruct (IH {| self_start := self_start self; self_stop := self_stop self;
                    self_step := self_step self;
                    self_current := self_current self + self_step self |})
      as [l Hl]; cbn [self_step self_stop self_current]; [done| | |].
    + intros Hgt. specialize (Hpos Hgt). lia.
    + intros Hlt. specialize (Hneg Hlt). lia.
    + exists (self_current self :: l). eapply finite_seq_cons; [|exact Hl].
      unfold Range_next. by rewrite (proj2 (orb_false_iff _ _) (conj
        (proj2 (andb_false_iff _ _) H1) (proj2 (andb_false_iff _ _) H2))).
Qed.

(** More fuel does not change the answer of a pull that answered. *)
Lemma next_mono {A} fuel fuel' (it : iterator A) :
  (fuel ≤ fuel')%nat → next fuel it ≠ NoAnswer → next fuel' it = next fuel it.
Proof.
  revert fuel' it. induction fuel as [|fuel IH]; intros fuel' it Hle Hans;
    [done|].
  destruct fuel' as [|fuel']; [lia|].
  rewrite (next_S fuel) in Hans. rewrite (next_S fuel), (next_S fuel').
  destruct (resume it (frame it)) as [[a| | |e] s]; try done.
  apply IH; [lia|done].
Qed.

(** Draining sees what the pulls see: when [list(it)] ends normally
    with [l], the first [len(l)] pulls yield [l] and the pull after
    them signals exhaustion. *)
Lemma list_done_pulls {A} fuel (it : iterator A) l :
  list_ fuel it = Done l →
  ∀ fuel', (fuel ≤ fuel')%nat →
    (take_ fuel' (length l) it).1 = l ∧
    ∃ it', next fuel' (take_ fuel' (length l) it).2 = Exhausted it'.
Proof.
  revert it l. induction fuel as [|fuel IH]; intros it l Hl fuel' Hle; [done|].
  destruct fuel' as [|fuel']; [lia|]. rewrite list_S in Hl.
  destruct (resume it (frame it)) as [[a| | |e] s] eqn:Hr; try done.
  - destruct (list_ fuel (at_frame it s)) as [l'| |] eqn:Hl'; try done.
    injection Hl as <-.
    destruct (IH _ _ Hl' (S fuel')) as [Htake Hnext]; [lia|].
    cbn [length take_]. rewrite next_S, Hr.
    destruct (take_ (S fuel') (length l') (at_frame it s)) as [l0 it''].
    cbn [fst snd] in Htake, Hnext |- *. by rewrite Htake.
  - destruct (IH _ _ Hl fuel') as [Htake Hnext]; [lia|].
    destruct (IH _ _ Hl (S fuel')) as [Htake' Hnext']; [lia|].
    assert (Hsame : next (S fuel') it = next (S fuel') (at_frame it s)).
    { rewrite (next_S fuel' it), Hr. symmetry. apply next_mono; [lia|].
      destruct l as [|a l]; cbn [length take_ fst snd] in Htake, Hnext.
      - destruct Hnext as [it' ->]. done.
      - by destruct (next fuel' (at_frame it s)). }
    destruct l as [|a l]; cbn [length take_ fst snd] in *.
    + rewrite Hsame. split; [reflexivity | exact Hnext'].
    + rewrite Hsame.
      destruct (next (S fuel') (at_frame it s)); try done.
  - injection Hl as <-. cbn [length take_ fst snd]. rewrite next_S, Hr.
    eauto.
Qed.

(** A stage answers its upstream's exhaustion with its own, and is
    finished from then on. *)
Lemma next_filter_exhausted {A S} (r : S → event A * S) p fuel s up' :
  next fuel (Iterator r s) = Exhausted up' →
  next fuel (Iterator (filter_next p r) (Suspended s))
  = Exhausted (Iterator (filter_next p r) Finished).
Proof.
  revert s. induction fuel as [|fuel IH]; intros s; [done|].
  rewrite !next_S. cbn [resume frame filter_next].
  destruct (r s) as [[x| | |e] s']; frames; try done.
  apply IH.
Qed.

Lemma next_map_exhausted {A B S} (r : S → event A * S) (f : A → B) fuel s up' :
  next fuel (Iterator r s) = Exhausted up' →
  next fuel (Iterator (map_next f r) (Suspended s))
  = Exhausted (Iterator (map_next f r) Finished).
Proof.
  revert s. induction fuel as [|fuel IH]; intros s; [done|].
  rewrite !next_S. cbn [resume frame map_next].
  destruct (r s) as [[x| | |e] s']; frames; try done.
  apply IH.
Qed.

Lemma next_stage_exhausted {A} (st : stage A) (upstream : iterator A) fuel up' :
  next fuel upstream = Exhausted up' →
  ∃ it', next fuel (apply_stage st upstream) = Exhausted it' ∧ exhausted it'.
Proof.
  destruct upstream as [S r s]. intros Hup. destruct st as [p|f]; cbn.
  - eexists. split; [by eapply next_filter_exhausted|].
    by apply exhausted_fixpoint.
  - eexists. split; [by eapply next_map_exhausted|].
    by apply exhausted_fixpoint.
Qed.

(** C6: pulling past the last element of a finite lazy sequence
    answers [StopIteration], not a value: whenever [list(it)] ends
    normally with [l], the first [len(l)] pulls yield [l] and the pull
    after them signals exhaustion; [count_up_to(max_value)] is the
    finite sequence [1..max_value] and a [Range] with a non-zero step is
    a finite sequence, so that [list] ends normally, without an error,
    and every later pull signals exhaustion; a filter or map stage
    answers its upstream's exhaustion with its own, from then on, and
    draining a stage over a finite upstream ends normally. *)
Theorem exhaustion_signalled_and_propagated :
  (∀ {A} (it : iterator A) fuel l,
     list_ fuel it = Done l →
     (take_ fuel (length l) it).1 = l ∧
     ∃ it', next fuel (take_ fuel (length l) it).2 = Exhausted it') ∧
  (∀ max_value,
     finite_seq (count_up_to max_value) (seqZ 1 (Z.max 0 max_value))) ∧
  (∀ start stop step, step ≠ 0 → ∃ l, finite_seq (Range start stop step) l) ∧
  (∀ {A} (st : stage A) (upstream : iterator A) fuel up',
     next fuel upstream = Exhausted up' →
     ∃ it', next fuel (apply_stage st upstream) = Exhausted it'
            ∧ exhausted it') ∧
  (∀ {A} (st : stage A) (upstream : iterator A) fuel l,
     list_ fuel upstream = Done l →
     list_ fuel (apply_stage st upstream) = Done (eager_stage st l)).
Proof.
  split; [|split; [|split; [|split]]].
  - intros A it fuel l Hl. by apply (list_done_pulls fuel).
  - intros max_value. unfold count_up_to.
    replace (Z.max 0 max_value)
      with (Z.of_nat (Z.to_nat (max_value + 1 - 1))) by lia.
    by apply count_up_to_finite.
  - intros start stop step Hstep. unfold Range.
    apply (Range_finite
      (Z.to_nat (self_stop (Range_init start stop step)
                 - self_current (Range_init start stop step))
       + Z.to_nat (self_current (Range_init start stop step)
                   - self_stop (Range_init start stop step)))).
    + by destruct stop.
    + lia.
    + lia.
  - intros A st upstream fuel up'. apply next_stage_exhausted.
  - intros A st upstream fuel l Hl. by rewrite list_apply_stage, Hl.
Qed.

Lemma exhaustion_signalled_and_propagated_witness :
  (∃ it', next 6 (take_ 6 5 (Range 5 None 1)).2 = Exhausted it') ∧
  (∃ l, finite_seq (Range 10 (Some 0) (-2)) l) ∧
  (∃ it', next 1 (filter_even (count_up_to 0)) = Exhausted it'
          ∧ exhausted it') ∧
  list_ 4 (square (count_up_to 3)) = Done [1; 4; 9].
Proof.
  destruct exhaustion_signalled_and_propagated
    as (Hpull & _ & HRange & Hnext & Hlist).
  split; [|split; [|split]].
  - apply (Hpull Z (Range 5 None 1) 6%nat [0; 1; 2; 3; 4]). reflexivity.
  - apply HRange. lia.
  - apply (Hnext Z (Filter (λ num, num `mod` 2 =? 0)) (count_up_to 0) 1%nat
             (Iterator (count_up_to_next 0) Finished)).
    reflexivity.
  - apply (Hlist Z (Map (λ num, num ^ 2)) (count_up_to 3) 4%nat [1; 2; 3]).
    reflexivity.
Defined.

(** ** Unbounded sequences *)

(** *** Pulls and the trace of resumptions *)

Lemma trace_S {A} m (it : iterator A) :
  trace (S m) it
  = match resume it (frame it) with
    | (Yield a, s) => a :: trace m (at_frame it s)
    | (Tau, s) => trace m (at_frame it s)
    | (StopIteration, _) | (Raise _, _) => []
    end.
Proof. reflexivity. Qed.

Lemma trace_length_mono {A} m m' (it : iterator A) :
  (m ≤ m')%nat → (length (trace m it) ≤ length (trace m' it))%nat.
Proof.
  revert m' it. induction m as [|m IH]; intros m' it Hle; [cbn; lia|].
  destruct m' as [|m']; [lia|]. rewrite !trace_S.
  destruct (resume it (frame it)) as [[a| | |e] s]; cbn [length];
    try specialize (IH m' (at_frame it s)); lia.
Qed.

(** A pull that yields consumed some resumptions of the trace. *)
Lemma next_yielded_trace {A} fuel (it : iterator A) a it' :
  next fuel it = Yielded a it' →
  ∃ j, ∀ m, trace (j + m) it = a :: trace m it'.
Proof.
  revert it. induction fuel as [|fuel IH]; intros it; [done|].
  rewrite next_S.
  destruct (resume it (frame it)) as [[x| | |e] s] eqn:Hr; try done.
  - intros [= -> <-]. exists 1%nat. intros m. cbn [Nat.add].
    by rewrite trace_S, Hr.
  - intros Hnext. destruct (IH _ Hnext) as [j Hj].
    exists (S j). intros m. cbn [Nat.add]. by rewrite trace_S, Hr.
Qed.

(** What bounded consumption returns is a prefix of the trace. *)
Lemma take_prefix_trace {A} fuel n (it : iterator A) :
  ∃ m l, trace m it = (take_ fuel n it).1 ++ l.
Proof.
  revert it. induction n as [|n IH]; intros it.
  - by exists 0%nat, [].
  - cbn [take_]. destruct (next fuel it) as [a it'|it'|e it'|] eqn:Hnext;
      try by exists 0%nat, [].
    destruct (next_yielded_trace _ _ _ _ Hnext) as [j Hj].
    destruct (IH it') as (m & l & Hm).
    exists (j + m)%nat, l. rewrite Hj, Hm.
    by destruct (take_ fuel n it').
Qed.

(** A non-empty trace starts with what the first pull yields. *)
Lemma trace_next {A} m (it : iterator A) :
  trace m it ≠ [] →
  ∃ a it', next m it = Yielded a it'
           ∧ (length (trace m it) ≤ S (length (trace m it')))%nat.
Proof.
  revert it. induction m as [|m IH]; intros it; [done|].
  rewrite trace_S, next_S.
  destruct (resume it (frame it)) as [[x| | |e] s] eqn:Hr; try done.
  - intros _. exists x, (at_frame it s). split; [done|]. cbn [length].
    pose proof (trace_length_mono m (S m) (at_frame it s)). lia.
  - intros Hne. destruct (IH _ Hne) as (a & it' & Hnext & Hlen).
    exists a, it'. split; [done|].
    pose proof (trace_length_mono m (S m) it'). lia.
Qed.

Lemma trace_take {A} m n (it : iterator A) :
  (n ≤ length (trace m it))%nat → length (take_ m n it).1 = n.
Proof.
  revert it. induction n as [|n IH]; intros it Hn; [done|].
  destruct (trace_next m it) as (a & it' & Hnext & Hlen).
  { intros Hnil. rewrite Hnil in Hn. cbn in Hn. lia. }
  cbn [take_]. rewrite Hnext.
  specialize (IH it'). destruct (take_ m n it') as [l it''].
  cbn in IH |- *. rewrite IH; [done|lia].
Qed.

Lemma unbounded_trace {A} (it : iterator A) :
  unbounded it ↔ ∀ n, ∃ m, (n ≤ length (trace m it))%nat.
Proof.
  split.
  - intros Hun n. destruct (Hun n) as [fuel Hlen].
    destruct (take_prefix_trace fuel n it) as (m & l & Hm).
    exists m. rewrite Hm, length_app. lia.
  - intros Htr n. destruct (Htr n) as [m Hm].
    exists m. by apply trace_take.
Qed.

(** *** Stages over the trace *)

Lemma trace_filter_at {A S} (r : S → event A * S) p m s :
  trace m (Iterator (filter_next p r) (Suspended s))
  = List.filter p (trace m (Iterator r s)).
Proof.
  revert s. induction m as [|m IH]; intros s; [done|].
  rewrite !trace_S. cbn [resume frame filter_next].
  destruct (r s) as [[x| | |e] s']; try done; [|frames; apply IH].
  cbn [List.filter].
  destruct (p x); frames; by rewrite IH.
Qed.

Lemma trace_map_at {A B S} (r : S → event A * S) (f : A → B) m s :
  trace m (Iterator (map_next f r) (Suspended s))
  = List.map f (trace m (Iterator r s)).
Proof.
  revert s. induction m as [|m IH]; intros s; [done|].
  rewrite !trace_S. cbn [resume frame map_next].
  destruct (r s) as [[x| | |e] s']; try done; frames; by rewrite IH.
Qed.

(** *** Stopping *)

Lemma ends_S {A} m (it : iterator A) :
  ends (S m) it
  = match resume it (frame it) with
    | (Yield _, s) | (Tau, s) => ends m (at_frame it s)
    | (StopIteration, _) | (Raise _, _) => True
    end.
Proof. reflexivity. Qed.

Lemma ends_bounds_trace {A} m (it : iterator A) :
  ends m it → ∀ m', (length (trace m' it) ≤ m)%nat.
Proof.
  revert it. induction m as [|m IH]; intros it; [done|].
  rewrite ends_S. intros Hends [|m']; [cbn; lia|]. rewrite trace_S.
  destruct (resume it (frame it)) as [[x| | |e] s]; cbn [length]; try lia.
  - specialize (IH _ Hends m'). lia.
  - specialize (IH _ Hends m'). lia.
Qed.

Lemma next_stops_ends {A} fuel (it : iterator A) :
  match next fuel it with
  | Exhausted _ | Raised _ _ => ends fuel it
  | _ => True
  end.
Proof.
  revert it. induction fuel as [|fuel IH]; intros it; [done|].
  rewrite next_S, ends_S.
  destruct (resume it (frame it)) as [[x| | |e] s]; try done.
  apply IH.
Qed.

Lemma next_yielded_ends {A} fuel (it : iterator A) a it' m :
  next fuel it = Yielded a it' → ends m it' → ends (fuel + m) it.
Proof.
  revert it. induction fuel as [|fuel IH]; intros it; [done|].
  rewrite next_S. cbn [Nat.add]. rewrite ends_S.
  destruct (resume it (frame it)) as [[x| | |e] s]; try done.
  - intros [= -> <-] Hends. clear IH.
    revert Hends. generalize (at_frame it s). clear.
    induction fuel as [|fuel IH]; intros it Hends; [done|].
    cbn [Nat.add]. rewrite ends_S.
    destruct m as [|m]; [done|].
    assert (∀ k (it0 : iterator A), ends k it0 → ends (S k) it0) as Hmono.
    { clear. induction k as [|k IHk]; intros it0; [done|].
      rewrite !ends_S.
      destruct (resume it0 (frame it0)) as [[x| | |e] s]; try done;
        apply IHk. }
    specialize (IH it Hends). apply Hmono in IH.
    by rewrite ends_S in IH.
  - apply IH.
Qed.

Lemma signals_exhaustion_ends {A} (it : iterator A) :
  signals_exhaustion it → ∃ m, ends m it.
Proof.
  intros (fuel & n & fuel' & it' & Hex).
  revert it Hex. induction n as [|n IH]; intros it Hex.
  - exists fuel'. pose proof (next_stops_ends fuel' it) as H.
    cbn [take_ snd] in Hex. by rewrite Hex in H.
  - cbn [take_] in Hex. pose proof (next_stops_ends fuel it) as Hstop.
    destruct (next fuel it) as [a it1|it1|e it1|] eqn:Hnext.
    + destruct (take_ fuel n it1) as [l it2] eqn:Htake. cbn [snd] in Hex.
      destruct (IH it1) as [m Hm]; [by rewrite Htake|].
      exists (fuel + m)%nat. by eapply next_yielded_ends.
    + by exists fuel.
    + by exists fuel.
    + exists fuel'. pose proof (next_stops_ends fuel' it) as H.
      cbn [snd] in Hex. by rewrite Hex in H.
Qed.

Lemma ends_filter_at {A S} (r : S → event A * S) p m s :
  ends m (Iterator (filter_next p r) (Suspended s)) → ends m (Iterator r s).
Proof.
  revert s. induction m as [|m IH]; intros s; [done|].
  rewrite !ends_S. cbn [resume frame filter_next].
  destruct (r s) as [[x| | |e] s']; try done; [|frames; apply IH].
  destruct (p x); frames; apply IH.
Qed.

(** *** Unbounded sources through a stage *)

Lemma unbounded_never_exhausts {A} (it : iterator A) :
  unbounded it → ¬ signals_exhaustion it.
Proof.
  intros Hun Hsig. apply signals_exhaustion_ends in Hsig as [m Hends].
  destruct (proj1 (unbounded_trace it) Hun (S m)) as [m' Hm'].
  pose proof (ends_bounds_trace _ _ Hends m'). lia.
Qed.

Lemma map_unbounded {A B} (f : A → B) (source : iterator A) :
  unbounded source → unbounded (map_stage f source).
Proof.
  destruct source as [T r s]. rewrite !unbounded_trace. intros Hun n.
  destruct (Hun n) as [m Hm]. exists m.
  unfold map_stage. cbn [resume frame state]. by rewrite trace_map_at, length_map.
Qed.

Lemma filter_never_exhausts {A} (p : A → bool) (source : iterator A) :
  unbounded source → ¬ signals_exhaustion (filter_stage p source).
Proof.
  destruct source as [T r s]. intros Hun Hsig.
  apply signals_exhaustion_ends in Hsig as [m Hends].
  unfold filter_stage in Hends. cbn [resume frame state] in Hends.
  apply ends_filter_at in Hends.
  destruct (proj1 (unbounded_trace _) Hun (S m)) as [m' Hm'].
  pose proof (ends_bounds_trace _ _ Hends m'). lia.
Qed.

Lemma filter_length_app {A} (p : A → bool) (l l' : list A) :
  (length (List.filter p l) ≤ length (List.filter p (l ++ l')))%nat.
Proof. rewrite List.filter_app, length_app. lia. Qed.

Lemma filter_unbounded {A} (p : A → bool) (source : iterator A) :
  (∀ n, ∃ fuel k,
     (n ≤ length (List.filter p (take_ fuel k source).1))%nat) →
  unbounded (filter_stage p source).
Proof.
  destruct source as [T r s]. intros Hmany. apply unbounded_trace. intros n.
  destruct (Hmany n) as (fuel & k & Hn).
  destruct (take_prefix_trace fuel k (Iterator r s)) as (m & l & Hm).
  exists m. unfold filter_stage. cbn [resume frame state].
  rewrite trace_filter_at, Hm.
  etrans; [exact Hn|]. apply filter_length_app.
Qed.

(** *** The Fibonacci source *)

Lemma take_S_yielded {A} fuel n (it : iterator A) a it' :
  next fuel it = Yielded a it' →
  (take_ fuel (S n) it).1 = a :: (take_ fuel n it').1.
Proof.
  intros Hnext. cbn [take_]. rewrite Hnext.
  by destruct (take_ fuel n it').
Qed.

Lemma fibonacci_unbounded : unbounded fibonacci_generator.
Proof. intros n. exists 1%nat. apply take_fibonacci. Qed.

(** Every third Fibonacci number is even. *)
Lemma fibonacci_many_even n a b :
  a `mod` 2 = 0 → b `mod` 2 = 1 →
  (n ≤ length (List.filter (λ num : Z, (num `mod` 2 =? 0)%Z)
                 (take_ 1 (3 * n) (Iterator fibonacci_next (a, b))).1))%nat.
Proof.
  revert a b. induction n as [|n IH]; intros a b Ha Hb; [lia|].
  replace (3 * S n)%nat with (S (S (S (3 * n)))) by lia.
  rewrite (take_S_yielded _ _ _ a (Iterator fibonacci_next (b, a + b)))
    by done.
  rewrite (take_S_yielded _ _ _ b
             (Iterator fibonacci_next (a + b, b + (a + b)))) by done.
  rewrite (take_S_yielded _ _ _ (a + b)
             (Iterator fibonacci_next (b + (a + b), a + b + (b + (a + b)))))
    by done.
  assert (Ha' : (b + (a + b)) `mod` 2 = 0).
  { replace (b + (a + b)) with (a + b * 2) by lia.
    by rewrite Z.mod_add. }
  assert (Hb' : (a + b + (b + (a + b))) `mod` 2 = 1).
  { replace (a + b + (b + (a + b))) with (b + (a + b) * 2) by lia.
    by rewrite Z.mod_add. }
  specialize (IH _ _ Ha' Hb').
  cbn [List.filter]. rewrite Ha. cbn [Z.eqb length].
  destruct (b `mod` 2 =? 0), ((a + b) `mod` 2 =? 0); cbn [length]; lia.
Qed.

(** *** A step of zero *)

Lemma take_constant {A S} (r : S → event A * S) s a fuel n :
  r s = (Yield a, s) →
  length (take_ (Datatypes.S fuel) n (Iterator r s)).1 = n.
Proof.
  intros Hr. induction n as [|n IH]; [done|].
  rewrite (take_S_yielded _ _ _ a (Iterator r s)).
  - cbn [length]. by rewrite IH.
  - rewrite next_S. cbn [resume frame]. by rewrite Hr.
Qed.

Lemma next_filter_constant {A S} (r : S → event A * S) p s a fuel :
  r s = (Yield a, s) → p a = false →
  next fuel (Iterator (filter_next p r) (Suspended s)) = NoAnswer.
Proof.
  intros Hr Hp. induction fuel as [|fuel IH]; [done|].
  rewrite next_S. cbn [resume frame filter_next]. rewrite Hr, Hp.
  frames. apply IH.
Qed.

(** C7 as stated fails: [Range(1, 10, 0)] never reaches its stop and
    yields [1] for ever, so it is an unbounded source, yet
    [filter_even] over it finds no even number: its first pull never
    answers, and it produces no element at all. *)
Lemma filter_even_of_unbounded_counterexample :
  unbounded (Range 1 (Some 10) 0) ∧
  (∀ fuel, next fuel (filter_even (Range 1 (Some 10) 0)) = NoAnswer) ∧
  ¬ unbounded (filter_even (Range 1 (Some 10) 0)).
Proof.
  assert (Hr : Range_next (Range_init 1 (Some 10) 0)
               = (Yield 1, Range_init 1 (Some 10) 0)) by reflexivity.
  assert (Hno : ∀ fuel,
    next fuel (filter_even (Range 1 (Some 10) 0)) = NoAnswer).
  { intros fuel. unfold filter_even, filter_stage, Range. cbn [resume frame state].
    by eapply next_filter_constant. }
  split; [|split; [exact Hno|]].
  - intros n. exists 1%nat. unfold Range. by eapply take_constant.
  - intros Hun. destruct (Hun 1%nat) as [fuel Hlen].
    cbn [take_] in Hlen. by rewrite Hno in Hlen.
Qed.

(** *** A filter that finds nothing *)

Lemma take_mono {A} fuel fuel' n (it : iterator A) :
  (fuel ≤ fuel')%nat → length (take_ fuel n it).1 = n →
  take_ fuel' n it = take_ fuel n it.
Proof.
  intros Hle. revert it. induction n as [|n IH]; intros it Hn; [done|].
  cbn [take_] in Hn |- *.
  destruct (next fuel it) as [a it1|it1|e it1|] eqn:Hnext; try done.
  rewrite (next_mono fuel fuel') by (done || congruence). rewrite Hnext.
  specialize (IH it1). destruct (take_ fuel n it1) as [l it2].
  cbn [fst length] in Hn, IH. rewrite IH by lia. done.
Qed.

(** The trace of [m] resumptions is what as many pulls return. *)
Lemma trace_as_take {A} m (it : iterator A) :
  (take_ m (length (trace m it)) it).1 = trace m it.
Proof.
  revert it. induction m as [|m IH]; intros it; [done|].
  rewrite trace_S.
  destruct (resume it (frame it)) as [[a| | |e] s] eqn:Hr; try done.
  - cbn [length]. rewrite (take_S_yielded _ _ _ a (at_frame it s))
      by by rewrite next_S, Hr.
    f_equal. rewrite (take_mono m (S m)); [apply IH|lia|].
    by rewrite IH.
  - pose proof (IH (at_frame it s)) as Htake.
    destruct (trace m (at_frame it s)) as [|a l] eqn:Htr; [done|].
    cbn [length take_] in Htake |- *. rewrite next_S, Hr.
    destruct (next m (at_frame it s)) as [a' it1|it1|e it1|]; try done.
    assert (Hlen : length (take_ m (length l) it1).1 = length l).
    { destruct (take_ m (length l) it1) as [l' it2]. cbn [fst] in Htake |- *.
      by injection Htake as _ ->. }
    rewrite (take_mono m (S m)) by (lia || done).
    exact Htake.
Qed.

Lemma unbounded_never_ends {A} (it : iterator A) m :
  unbounded it → ¬ ends m it.
Proof.
  intros Hun Hends.
  destruct (proj1 (unbounded_trace it) Hun (S m)) as [m' Hm'].
  pose proof (ends_bounds_trace _ _ Hends m'). lia.
Qed.

Lemma next_filter_never {A St} (r : St → event A * St) (p : A → bool) fuel s :
  (∀ m, ¬ ends m (Iterator r s)) →
  (∀ m, Forall (λ y, p y = false) (trace m (Iterator r s))) →
  next fuel (Iterator (filter_next p r) (Suspended s)) = NoAnswer.
Proof.
  revert s. induction fuel as [|fuel IH]; intros s Hends Hfail; [done|].
  rewrite next_S. cbn [resume frame filter_next].
  pose proof (Hends 1%nat) as Hends1. pose proof (Hfail 1%nat) as Hfail1.
  rewrite ends_S in Hends1. rewrite trace_S in Hfail1.
  cbn [resume frame] in Hends1, Hfail1.
  destruct (r s) as [[x| | |e] s'] eqn:Hr; try done.
  - apply Forall_cons in Hfail1 as [-> _]. frames. apply IH.
    + intros m Hm. apply (Hends (S m)). rewrite ends_S.
      cbn [resume frame]. by rewrite Hr.
    + intros m. specialize (Hfail (S m)). rewrite trace_S in Hfail.
      cbn [resume frame] in Hfail. rewrite Hr in Hfail.
      by apply Forall_cons in Hfail as [_ ?].
  - frames. apply IH.
    + intros m Hm. apply (Hends (S m)). rewrite ends_S.
      cbn [resume frame]. by rewrite Hr.
    + intros m. specialize (Hfail (S m)). rewrite trace_S in Hfail.
      cbn [resume frame] in Hfail. by rewrite Hr in Hfail.
Qed.

Lemma filter_finds_nothing {A} (p : A → bool) (source : iterator A) :
  unbounded source →
  (∀ fuel k, Forall (λ y, p y = false) (take_ fuel k source).1) →
  ∀ fuel, next fuel (filter_stage p source) = NoAnswer.
Proof.
  intros Hun Hfail fuel. destruct source as [S r s].
  unfold filter_stage. cbn [resume frame state]. apply next_filter_never.
  - intros m. by apply unbounded_never_ends.
  - intros m. rewrite <- trace_as_take. apply Hfail.
Qed.

Lemma next_filter_yielded_passes {A S} (r : S → event A * S) (p : A → bool)
    fuel g a it' :
  next fuel (Iterator (filter_next p r) g) = Yielded a it' → p a = true.
Proof.
  revert g. induction fuel as [|fuel IH]; intros g; [done|].
  rewrite next_S. cbn [resume frame].
  destruct g as [s|]; cbn [filter_next]; [|done].
  destruct (r s) as [[x| | |e] s']; try done; [|frames; apply IH].
  destruct (p x) eqn:Hp; frames.
  - by intros [= <- _].
  - apply IH.
Qed.

Lemma filter_yields_or_never_returns {A} (p : A → bool) (source : iterator A)
    fuel :
  unbounded source →
  next fuel (filter_stage p source) = NoAnswer
  ∨ ∃ a it', next fuel (filter_stage p source) = Yielded a it' ∧ p a = true.
Proof.
  intros Hun.
  pose proof (next_stops_ends fuel (filter_stage p source)) as Hstop.
  destruct (next fuel (filter_stage p source)) as [a it'|it'|e it'|] eqn:Hnext.
  - right. exists a, it'. split; [done|].
    destruct source as [S r s]. by eapply next_filter_yielded_passes.
  - exfalso. destruct source as [S r s].
    unfold filter_stage in Hstop. cbn [resume frame state] in Hstop.
    apply ends_filter_at in Hstop. by eapply unbounded_never_ends.
  - exfalso. destruct source as [S r s].
    unfold filter_stage in Hstop. cbn [resume frame state] in Hstop.
    apply ends_filter_at in Hstop. by eapply unbounded_never_ends.
  - by left.
Qed.

Lemma take_constant_elements {A S} (r : S → event A * S) s a fuel n :
  r s = (Yield a, s) →
  Forall (λ y, y = a) (take_ fuel n (Iterator r s)).1.
Proof.
  intros Hr. destruct fuel as [|fuel]; [by destruct n|].
  induction n as [|n IH]; [by constructor|].
  rewrite (take_S_yielded _ _ _ a (Iterator r s)).
  - by constructor.
  - rewrite next_S. cbn [resume frame]. by rewrite Hr.
Qed.

Lemma next_filter_keeps_going {A St} (r : St → event A * St) (p : A → bool)
    fuel s :
  (∀ m, ¬ ends m (Iterator r s)) →
  next fuel (Iterator (filter_next p r) (Suspended s)) = NoAnswer
  ∨ ∃ a s',
      next fuel (Iterator (filter_next p r) (Suspended s))
      = Yielded a (Iterator (filter_next p r) (Suspended s'))
      ∧ p a = true ∧ ∀ m, ¬ ends m (Iterator r s').
Proof.
  revert s. induction fuel as [|fuel IH]; intros s Hends; [by left|].
  rewrite next_S. cbn [resume frame filter_next].
  pose proof (Hends 1%nat) as Hends1. rewrite ends_S in Hends1.
  cbn [resume frame] in Hends1.
  assert (Hlater : ∀ ev s', r s = (ev, s') →
            match ev with Yield _ | Tau => True | _ => False end →
            ∀ m, ¬ ends m (Iterator r s')).
  { intros ev s' Hr Hev m Hm. apply (Hends (S m)). rewrite ends_S.
    cbn [resume frame]. rewrite Hr. by destruct ev. }
  destruct (r s) as [[x| | |e] s'] eqn:Hr; try done.
  - destruct (p x) eqn:Hp; frames.
    + right. exists x, s'. split; [done|]. split; [done|].
      by apply (Hlater (Yield x)).
    + apply IH. by apply (Hlater (Yield x)).
  - frames. apply IH. by apply (Hlater Tau).
Qed.

Lemma nth_pull_filter_keeps_going {A St} (r : St → event A * St)
    (p : A → bool) fuel k s :
  (∀ m, ¬ ends m (Iterator r s)) →
  nth_pull fuel k (Iterator (filter_next p r) (Suspended s)) = NoAnswer
  ∨ ∃ a it',
      nth_pull fuel k (Iterator (filter_next p r) (Suspended s))
      = Yielded a it' ∧ p a = true.
Proof.
  revert s. induction k as [|k IH]; intros s Hends; cbn [nth_pull].
  - destruct (next_filter_keeps_going r p fuel s Hends)
      as [->|(a & s' & -> & Hp & _)]; [by left|].
    right. by eexists _, _.
  - destruct (next_filter_keeps_going r p fuel s Hends)
      as [->|(a & s' & -> & _ & Hends')]; [by left|].
    by apply IH.
Qed.

(** C7, as the code has it: an unbounded source composed with a pure
    map stage is unbounded; composed with a pure filter stage it never
    signals exhaustion: every pull on it either yields an element
    that passes the filter or never returns, and the first pull never
    returns when no element of the source passes; the filter stage is unbounded when
    the source keeps producing elements that pass the filter;
    [fibonacci_generator] is unbounded and so are [square] and
    [filter_even] over it. *)
Theorem unbounded_source_through_stage :
  (∀ {A B} (f : A → B) (source : iterator A),
     unbounded source →
     unbounded (map_stage f source)
     ∧ ¬ signals_exhaustion (map_stage f source)) ∧
  (∀ {A} (p : A → bool) (source : iterator A),
     unbounded source →
     ¬ signals_exhaustion (filter_stage p source)
     ∧ (∀ fuel k,
          nth_pull fuel k (filter_stage p source) = NoAnswer
          ∨ ∃ a it', nth_pull fuel k (filter_stage p source) = Yielded a it'
                     ∧ p a = true)
     ∧ ((∀ fuel k, Forall (λ y, p y = false) (take_ fuel k source).1) →
        ∀ fuel, next fuel (filter_stage p source) = NoAnswer)
     ∧ ((∀ n, ∃ fuel k,
           (n ≤ length (List.filter p (take_ fuel k source).1))%nat) →
        unbounded (filter_stage p source))) ∧
  unbounded fibonacci_generator ∧
  unbounded (square fibonacci_generator) ∧
  unbounded (filter_even fibonacci_generator).
Proof.
  split; [|split; [|split; [|split]]].
  - intros A B f source Hun. split.
    + by apply map_unbounded.
    + by apply unbounded_never_exhausts, map_unbounded.
  - intros A p source Hun. split; [|split; [|split]].
    + by apply filter_never_exhausts.
    + intros fuel k. destruct source as [St r s].
      apply nth_pull_filter_keeps_going.
      intros m. by apply unbounded_never_ends.
    + by apply filter_finds_nothing.
    + apply filter_unbounded.
  - apply fibonacci_unbounded.
  - apply map_unbounded, fibonacci_unbounded.
  - apply filter_unbounded. intros n. exists 1%nat, (3 * n)%nat.
    by apply fibonacci_many_even.
Qed.

Lemma unbounded_source_through_stage_witness :
  (unbounded (map_stage (λ num, num ^ 2) fibonacci_generator)
   ∧ ¬ signals_exhaustion (map_stage (λ num, num ^ 2) fibonacci_generator)) ∧
  (¬ signals_exhaustion
       (filter_stage (λ num, num `mod` 2 =? 0) fibonacci_generator)
   ∧ unbounded (filter_stage (λ num, num `mod` 2 =? 0) fibonacci_generator)) ∧
  (∀ fuel,
     next fuel (filter_stage (λ num, num `mod` 2 =? 0) (Range 1 (Some 10) 0))
     = NoAnswer).
Proof.
  destruct unbounded_source_through_stage as (Hmap & Hfilter & _).
  split; [|split].
  - apply (Hmap Z Z), fibonacci_unbounded.
  - destruct (Hfilter Z (λ num, num `mod` 2 =? 0) fibonacci_generator
                fibonacci_unbounded) as (Hnever & _ & _ & Hun).
    split; [exact Hnever|]. apply Hun.
    intros n. exists 1%nat, (3 * n)%nat. by apply fibonacci_many_even.
  - assert (Hr : Range_next (Range_init 1 (Some 10) 0)
                 = (Yield 1, Range_init 1 (Some 10) 0)) by reflexivity.
    destruct (Hfilter Z (λ num, num `mod` 2 =? 0) (Range 1 (Some 10) 0))
      as (_ & _ & Hnothing & _).
    + intros n. exists 1%nat. unfold Range. by eapply take_constant.
    + apply Hnothing. intros fuel k. unfold Range.
      eapply Forall_impl; [by eapply take_constant_elements|].
      by intros y ->.
Defined.

(** * Further properties *)

(** ** Consuming in parts *)

Lemma list_mono {A} fuel fuel' (it : iterator A) l :
  list_ fuel it = Done l → (fuel ≤ fuel')%nat → list_ fuel' it = Done l.
Proof.
  revert fuel' it l. induction fuel as [|fuel IH]; intros fuel' it l Hl Hle;
    [done|].
  destruct fuel' as [|fuel']; [lia|]. rewrite list_S in Hl. rewrite list_S.
  destruct (resume it (frame it)) as [[a| | |e] s]; try done.
  - destruct (list_ fuel (at_frame it s)) as [l'| |] eqn:Hl'; try done.
    by rewrite (IH fuel' _ l') by (done || lia).
  - apply (IH fuel'); [done|lia].
Qed.

(** The first pull on an iterator that drains to [a :: l] yields [a]
    and leaves an iterator that drains to [l]. *)
Lemma list_cons_next {A} fuel (it : iterator A) a l :
  list_ fuel it = Done (a :: l) →
  ∃ it', next fuel it = Yielded a it' ∧ list_ fuel it' = Done l.
Proof.
  revert it. induction fuel as [|fuel IH]; intros it Hl; [done|].
  rewrite list_S in Hl. rewrite next_S.
  destruct (resume it (frame it)) as [[x| | |e] s]; try done.
  - destruct (list_ fuel (at_frame it s)) as [l'| |] eqn:Hl'; try done.
    injection Hl as -> ->. exists (at_frame it s). split; [done|].
    apply (list_mono fuel); [done|lia].
  - destruct (IH _ Hl) as (it' & Hnext & Hrest). exists it'.
    split; [done|]. apply (list_mono fuel); [done|lia].
Qed.

Lemma list_take_drop {A} fuel (it : iterator A) l k :
  list_ fuel it = Done l → (k ≤ length l)%nat →
  ∃ it', take_ fuel k it = (take k l, it') ∧ list_ fuel it' = Done (drop k l).
Proof.
  revert it l. induction k as [|k IH]; intros it l Hl Hk.
  - exists it. by rewrite take_0, drop_0.
  - destruct l as [|a l]; [cbn in Hk; lia|].
    destruct (list_cons_next _ _ _ _ Hl) as (it1 & Hnext & Hl1).
    destruct (IH it1 l Hl1) as (it' & Htake & Hdrop); [cbn in Hk; lia|].
    exists it'. cbn [take_ take drop]. by rewrite Hnext, Htake.
Qed.

Lemma take_add {A} fuel n m (it : iterator A) :
  length (take_ fuel n it).1 = n →
  (take_ fuel (n + m) it).1
  = (take_ fuel n it).1 ++ (take_ fuel m (take_ fuel n it).2).1.
Proof.
  revert it. induction n as [|n IH]; intros it Hn; [done|].
  cbn [Nat.add take_] in Hn |- *.
  destruct (next fuel it) as [a it1|it1|e it1|]; try done.
  specialize (IH it1).
  destruct (take_ fuel n it1) as [l it2], (take_ fuel (n + m) it1) as [l' it2'].
  cbn [fst snd length] in *. rewrite IH by lia. done.
Qed.

(** X1: consuming an iterator in parts loses nothing and repeats
    nothing.  When draining [it] ends normally with [l], pulling [k]
    elements first returns the first [k] elements of [l] and leaves an
    iterator that drains to the rest; and whenever [n] elements can be
    pulled, pulling [n + m] returns those [n] followed by the [m]
    pulled from the iterator left behind. *)
Theorem consuming_in_parts :
  (∀ {A} (it : iterator A) fuel l k,
     list_ fuel it = Done l → (k ≤ length l)%nat →
     ∃ it', take_ fuel k it = (take k l, it')
            ∧ list_ fuel it' = Done (drop k l)) ∧
  (∀ {A} (it : iterator A) fuel n m,
     length (take_ fuel n it).1 = n →
     (take_ fuel (n + m) it).1
     = (take_ fuel n it).1 ++ (take_ fuel m (take_ fuel n it).2).1).
Proof.
  split.
  - intros A it fuel l k. apply list_take_drop.
  - intros A it fuel n m. apply take_add.
Qed.

Lemma consuming_in_parts_witness :
  (∃ it', take_ 6 2 (count_up_to 5) = ([1; 2], it')
          ∧ list_ 6 it' = Done [3; 4; 5]) ∧
  (take_ 1 15 fibonacci_generator).1
  = (take_ 1 10 fibonacci_generator).1
    ++ (take_ 1 5 (take_ 1 10 fibonacci_generator).2).1.
Proof.
  destruct consuming_in_parts as [Hdrain Htake]. split.
  - apply (Hdrain Z (count_up_to 5) 6%nat [1; 2; 3; 4; 5] 2%nat).
    + reflexivity.
    + cbn. lia.
  - apply (Htake Z fibonacci_generator 1%nat 10%nat 5%nat). reflexivity.
Defined.

(** ** Demand-driven stages *)

Lemma next_map_at {A B S} (r : S → event A * S) (f : A → B) fuel s :
  next fuel (Iterator (map_next f r) (Suspended s))
  = match next fuel (Iterator r s) with
    | Yielded a up' => Yielded (f a) (map_stage f up')
    | Exhausted _ => Exhausted (Iterator (map_next f r) Finished)
    | Raised e _ => Raised e (Iterator (map_next f r) Finished)
    | NoAnswer => NoAnswer
    end.
Proof.
  revert s. induction fuel as [|fuel IH]; intros s; [done|].
  rewrite !next_S. cbn [resume frame map_next].
  destruct (r s) as [[x| | |e] s']; frames; first [done | apply IH].
Qed.

Lemma next_filter_pass {A S} (r : S → event A * S) (p : A → bool) fuel s a up' :
  next fuel (Iterator r s) = Yielded a up' → p a = true →
  next fuel (Iterator (filter_next p r) (Suspended s))
  = Yielded a (filter_stage p up').
Proof.
  revert s. induction fuel as [|fuel IH]; intros s; [done|].
  rewrite !next_S. cbn [resume frame filter_next].
  destruct (r s) as [[x| | |e] s']; frames; [|apply IH|done..].
  intros [= -> <-] Hp. by rewrite Hp.
Qed.

Lemma next_filter_skip (p : Z → bool) skipped x rest fuel :
  Forall (λ y, p y = false) skipped → p x = true →
  next (S (length skipped) + fuel)
       (Iterator (filter_next p read_numbers_next)
                 (Suspended (Suspended (skipped ++ x :: rest))))
  = Yielded x (filter_stage p (read_numbers rest)).
Proof.
  intros Hskip Hx. induction Hskip as [|y skipped Hy _ IH].
  - cbn [length Nat.add app]. rewrite next_S.
    cbn [resume frame filter_next read_numbers_next]. by rewrite Hx.
  - cbn [length Nat.add app]. rewrite next_S.
    cbn [resume frame filter_next read_numbers_next]. rewrite Hy. frames.
    apply IH.
Qed.

(** X2: stages are demand-driven.  A pull on a map stage makes exactly
    one pull on its upstream and leaves the stage over what that pull
    left; a pull on a filter stage whose upstream element passes the
    test does the same; and over [read_numbers] a filter stage consumes
    the elements that fail the test up to and including the first one
    that passes, and nothing after it. *)
Theorem stages_pull_on_demand :
  (∀ {A B} (f : A → B) (upstream : iterator A) fuel a up',
     next fuel upstream = Yielded a up' →
     next fuel (map_stage f upstream) = Yielded (f a) (map_stage f up')) ∧
  (∀ {A} (p : A → bool) (upstream : iterator A) fuel a up',
     next fuel upstream = Yielded a up' → p a = true →
     next fuel (filter_stage p upstream) = Yielded a (filter_stage p up')) ∧
  (∀ (p : Z → bool) skipped x rest fuel,
     Forall (λ y, p y = false) skipped → p x = true →
     next (S (length skipped) + fuel)
          (filter_stage p (read_numbers (skipped ++ x :: rest)))
     = Yielded x (filter_stage p (read_numbers rest))).
Proof.
  split; [|split].
  - intros A B f [S r s] fuel a up' Hup. unfold map_stage at 1.
    cbn [resume frame state]. by rewrite next_map_at, Hup.
  - intros A p [S r s] fuel a up' Hup Hp. unfold filter_stage at 1.
    cbn [resume frame state]. by eapply next_filter_pass.
  - intros p skipped x rest fuel. apply next_filter_skip.
Qed.

Lemma stages_pull_on_demand_witness :
  next 1 (square fibonacci_generator)
  = Yielded 0 (square (Iterator fibonacci_next (1, 1))) ∧
  next 4 (filter_even (read_numbers [1; 3; 5; 6; 7; 8]))
  = Yielded 6 (filter_even (read_numbers [7; 8])).
Proof.
  destruct stages_pull_on_demand as (Hmap & _ & Hskip). split.
  - apply (Hmap Z Z (λ num, num ^ 2) fibonacci_generator 1%nat 0
             (Iterator fibonacci_next (1, 1))).
    reflexivity.
  - apply (Hskip (λ num, num `mod` 2 =? 0) [1; 3; 5] 6 [7; 8] 0%nat).
    + by repeat constructor.
    + reflexivity.
Defined.

(** ** Stages compose like their eager transforms *)

Lemma drained_map_compose {A B C} (f : list A → list B) (g : list B → list C)
    (d : drained A) :
  drained_map g (drained_map f d) = drained_map (g ∘ f) d.
Proof. by destruct d. Qed.

Lemma drained_map_ext {A B} (f g : list A → list B) (d : drained A) :
  (∀ l, f l = g l) → drained_map f d = drained_map g d.
Proof. intros Hfg. destruct d; cbn; by rewrite ?Hfg. Qed.

Lemma list_filter_stage {A} (p : A → bool) fuel (upstream : iterator A) :
  list_ fuel (filter_stage p upstream)
  = drained_map (List.filter p) (list_ fuel upstream).
Proof. destruct upstream as [S r s]. apply list_filter_at. Qed.

Lemma list_map_stage {A B} (f : A → B) fuel (upstream : iterator A) :
  list_ fuel (map_stage f upstream)
  = drained_map (List.map f) (list_ fuel upstream).
Proof. destruct upstream as [S r s]. apply list_map_at. Qed.

Lemma filter_filter_and {A} (p q : A → bool) (l : list A) :
  List.filter p (List.filter q l) = List.filter (λ x, q x && p x) l.
Proof.
  induction l as [|x l IH]; [done|]. cbn.
  destruct (q x); cbn; [destruct (p x)|]; by rewrite IH.
Qed.

Lemma filter_map_swap {A B} (f : A → B) (p : B → bool) (l : list A) :
  List.filter p (List.map f l) = List.map f (List.filter (p ∘ f) l).
Proof.
  induction l as [|x l IH]; [done|]. cbn.
  destruct (p (f x)); cbn; by rewrite IH.
Qed.

(** X3: stages fuse.  With the same bound, and whatever the upstream
    does (ends, fails or never ends), two map stages in a row drain
    like one map stage with the composed function, two filter stages
    like one filter with both tests, and a filter after a map like the
    map after a filter that tests the mapped value. *)
Theorem stages_fuse :
  (∀ {A B C} (f : A → B) (g : B → C) (upstream : iterator A) fuel,
     list_ fuel (map_stage g (map_stage f upstream))
     = list_ fuel (map_stage (g ∘ f) upstream)) ∧
  (∀ {A} (p q : A → bool) (upstream : iterator A) fuel,
     list_ fuel (filter_stage p (filter_stage q upstream))
     = list_ fuel (filter_stage (λ x, q x && p x) upstream)) ∧
  (∀ {A B} (f : A → B) (p : B → bool) (upstream : iterator A) fuel,
     list_ fuel (filter_stage p (map_stage f upstream))
     = list_ fuel (map_stage f (filter_stage (p ∘ f) upstream))).
Proof.
  split; [|split].
  - intros A B C f g upstream fuel.
    rewrite !list_map_stage, drained_map_compose.
    apply drained_map_ext. intros l. cbn. apply List.map_map.
  - intros A p q upstream fuel.
    rewrite !list_filter_stage, drained_map_compose.
    apply drained_map_ext. intros l. apply filter_filter_and.
  - intros A B f p upstream fuel.
    rewrite list_filter_stage, !list_map_stage, list_filter_stage,
      !drained_map_compose.
    apply drained_map_ext. intros l. apply filter_map_swap.
Qed.

(** X4: pulling one element at a time gives what draining gives.  For
    every [data], every composition of filter and map stages and every
    [k], the first [k] elements pulled from the lazy pipeline over
    [read_numbers(data)] are the first [k] elements of the eager
    transform of [data]. *)
Theorem incremental_pulls_match_eager
    (data : list Z) (stages : list (stage Z)) (k extra : nat) :
  (take_ (S (length data + extra)) k (compose stages (read_numbers data))).1
  = take k (eager stages data).
Proof.
  assert (Hl : list_ (S (length data + extra))
                 (compose stages (read_numbers data))
               = Done (eager stages data)).
  { rewrite list_compose. unfold read_numbers.
    by rewrite list_read_numbers_at. }
  destruct (decide (k ≤ length (eager stages data))%nat) as [Hk|Hk].
  - destruct (list_take_drop _ _ _ k Hl Hk) as (it' & -> & _). done.
  - destruct (list_take_drop _ _ _ (length (eager stages data)) Hl)
      as (it' & Htake & Hrest); [lia|].
    rewrite drop_all in Hrest. rewrite take_ge in Htake |- * by lia.
    replace k with (length (eager stages data)
                    + (k - length (eager stages data)))%nat by lia.
    rewrite take_add by by rewrite Htake.
    rewrite Htake. cbn [fst snd].
    destruct (k - length (eager stages data))%nat as [|j];
      [cbn [take_ fst]; by rewrite (right_id_L [] (++))|].
    cbn [take_].
    assert (Hnext : ∃ it'', next (S (length data + extra)) it'
                            = Exhausted it'').
    { clear -Hrest. revert Hrest. generalize (S (length data + extra)).
      intros fuel. revert it'.
      induction fuel as [|fuel IH]; intros it' Hrest; [done|].
      rewrite list_S in Hrest. rewrite next_S.
      destruct (resume it' (frame it')) as [[a| | |e] s]; try done.
      - by destruct (list_ fuel (at_frame it' s)).
      - destruct (IH _ Hrest) as [it'' Hn]. eauto.
      - eauto. }
    destruct Hnext as [it'' ->]. cbn [fst]. by rewrite (right_id_L [] (++)).
Qed.

(** ** Exceptions pass through stages *)

Lemma next_filter_raised {A S} (r : S → event A * S) p fuel s e up' :
  next fuel (Iterator r s) = Raised e up' →
  next fuel (Iterator (filter_next p r) (Suspended s))
  = Raised e (Iterator (filter_next p r) Finished).
Proof.
  revert s. induction fuel as [|fuel IH]; intros s; [done|].
  rewrite !next_S. cbn [resume frame filter_next].
  destruct (r s) as [[x| | |e'] s']; frames; [done|apply IH|done|].
  by intros [= -> _].
Qed.

(** X5: an exception raised by the upstream of a filter or map stage
    reaches the stage's consumer unchanged, the stage is finished from
    then on, and [list] over the stage fails with the same exception. *)
Theorem stage_passes_exception_on :
  (∀ {A} (st : stage A) (upstream : iterator A) fuel e up',
     next fuel upstream = Raised e up' →
     ∃ it', next fuel (apply_stage st upstream) = Raised e it'
            ∧ exhausted it') ∧
  (∀ {A} (st : stage A) (upstream : iterator A) fuel e,
     list_ fuel upstream = Failed e →
     list_ fuel (apply_stage st upstream) = Failed e).
Proof.
  split.
  - intros A st [S r s] fuel e up' Hup.
    destruct st as [p|f]; cbn [apply_stage];
      unfold filter_stage, map_stage; cbn [resume frame state].
    + eexists. split; [by eapply next_filter_raised|].
      by apply exhausted_fixpoint.
    + rewrite next_map_at, Hup. eexists. split; [done|].
      by apply exhausted_fixpoint.
  - intros A st upstream fuel e Hup. by rewrite list_apply_stage, Hup.
Qed.

Lemma stage_passes_exception_on_witness :
  let failing : iterator Z :=
    Iterator (λ _ : unit, (Raise (RuntimeError "boom"), tt)) tt in
  list_ 3 (square failing) = Failed (RuntimeError "boom").
Proof.
  cbv zeta.
  apply (proj2 stage_passes_exception_on Z (Map (λ num, num ^ 2))).
  reflexivity.
Defined.

(** ** [Range] against Python's [range] *)

Lemma Range_next_before (self : Range_self) :
  before_stop (self_step self) (self_stop self) (self_current self) →
  Range_next self
  = (Yield (self_current self),
     {| self_start := self_start self; self_stop := self_stop self;
        self_step := self_step self;
        self_current := self_current self + self_step self |}).
Proof.
  intros Hb. unfold Range_next.
  destruct ((0 <? self_step self) && (self_stop self <=? self_current self)
            || (self_step self <? 0) && (self_current self <=? self_stop self))
    eqn:Hcond; [|done].
  exfalso. unfold before_stop in Hb.
  apply orb_true_iff in Hcond as [H|H]; apply andb_true_iff in H as [H1 H2];
    lia.
Qed.

Lemma Range_next_past (self : Range_self) :
  self_step self ≠ 0 →
  ¬ before_stop (self_step self) (self_stop self) (self_current self) →
  Range_next self = (StopIteration, self).
Proof.
  intros Hstep Hb. unfold Range_next.
  destruct ((0 <? self_step self) && (self_stop self <=? self_current self)
            || (self_step self <? 0) && (self_current self <=? self_stop self))
    eqn:Hcond; [done|].
  exfalso. apply Hb. unfold before_stop.
  apply orb_false_iff in Hcond as [H1 H2]. apply andb_false_iff in H1, H2.
  destruct H1, H2; lia.
Qed.

Lemma progression_cons start step n :
  progression start step (S n) = start :: progression (start + step) step n.
Proof.
  unfold progression. cbn [seq fmap list_fmap]. f_equal; [lia|].
  rewrite <- fmap_S_seq, <- list_fmap_compose.
  apply list_fmap_ext. intros _ i _. cbn. lia.
Qed.

Lemma Range_progression m (self : Range_self) :
  self_step self ≠ 0 →
  (0 < self_step self →
   (Z.to_nat (self_stop self - self_current self) ≤ m)%nat) →
  (self_step self < 0 →
   (Z.to_nat (self_current self - self_stop self) ≤ m)%nat) →
  ∃ n,
    finite_seq (Iterator Range_next self)
               (progression (self_current self) (self_step self) n) ∧
    (∀ i, (i < n)%nat →
       before_stop (self_step self) (self_stop self)
                   (self_current self + Z.of_nat i * self_step self)) ∧
    ¬ before_stop (self_step self) (self_stop self)
                  (self_current self + Z.of_nat n * self_step self).
Proof.
  revert self. induction m as [|m IH]; intros self Hstep Hpos Hneg;
    destruct (decide (before_stop (self_step self) (self_stop self)
                                  (self_current self))) as [Hb|Hb].
  - exfalso. unfold before_stop in Hb. destruct Hb as [[H1 H2]|[H1 H2]].
    + specialize (Hpos H1). lia.
    + specialize (Hneg H1). lia.
  - exists 0%nat. split; [|split].
    + apply finite_seq_nil.
      * cbn [resume frame]. by rewrite Range_next_past.
      * apply exhausted_fixpoint. by apply Range_next_past.
    + intros i Hi. lia.
    + by replace (self_current self + Z.of_nat 0 * self_step self)
        with (self_current self) by lia.
  - destruct (IH {| self_start := self_start self; self_stop := self_stop self;
                    self_step := self_step self;
                    self_current := self_current self + self_step self |})
      as (n & Hfin & Hin & Hout); cbn [self_step self_stop self_current] in *.
    + done.
    + intros Hgt. specialize (Hpos Hgt). unfold before_stop in Hb. lia.
    + intros Hlt. specialize (Hneg Hlt). unfold before_stop in Hb. lia.
    + exists (S n). split; [|split].
      * rewrite progression_cons. eapply finite_seq_cons; [|exact Hfin].
        by apply Range_next_before.
      * intros [|i] Hi.
        -- by replace (self_current self + Z.of_nat 0 * self_step self)
             with (self_current self) by lia.
        -- replace (self_current self + Z.of_nat (S i) * self_step self)
             with (self_current self + self_step self
                   + Z.of_nat i * self_step self) by lia.
           apply Hin. lia.
      * replace (self_current self + Z.of_nat (S n) * self_step self)
          with (self_current self + self_step self
                + Z.of_nat n * self_step self) by lia.
        exact Hout.
  - exists 0%nat. split; [|split].
    + apply finite_seq_nil.
      * cbn [resume frame]. by rewrite Range_next_past.
      * apply exhausted_fixpoint. by apply Range_next_past.
    + intros i Hi. lia.
    + by replace (self_current self + Z.of_nat 0 * self_step self)
        with (self_current self) by lia.
Qed.

(** X6: a [Range] with a non-zero step is Python's [range]: it yields
    [start, start + step, start + 2 * step, ...], every element lies
    before [stop] in the direction of the step, and the first term it
    leaves out does not; [list] ends normally with these elements and
    every later pull signals exhaustion. *)
Theorem Range_is_arithmetic_progression (start stop step : Z) :
  step ≠ 0 →
  ∃ n,
    finite_seq (Range start (Some stop) step) (progression start step n) ∧
    (∀ i, (i < n)%nat →
       before_stop step stop (start + Z.of_nat i * step)) ∧
    ¬ before_stop step stop (start + Z.of_nat n * step).
Proof.
  intros Hstep. unfold Range.
  apply (Range_progression
           (Z.to_nat (stop - start) + Z.to_nat (start - stop))
           (Range_init start (Some stop) step));
    cbn [Range_init self_step self_stop self_current]; [done|lia|lia].
Qed.

Lemma Range_is_arithmetic_progression_witness :
  ∃ n,
    finite_seq (Range 10 (Some 0) (-2)) (progression 10 (-2) n) ∧
    (∀ i, (i < n)%nat →
       before_stop (-2) 0 (10 + Z.of_nat i * -2)) ∧
    ¬ before_stop (-2) 0 (10 + Z.of_nat n * -2).
Proof. apply (Range_is_arithmetic_progression 10 0 (-2)). lia. Defined.

Lemma progression_step_1 start n :
  progression start 1 n = seqZ start (Z.of_nat n).
Proof.
  unfold progression, seqZ. rewrite Nat2Z.id.
  apply list_fmap_ext. intros _ i _. lia.
Qed.

(** X7: with the default step, [Range(start, stop)] yields the
    integers from [start] up to [stop - 1], and [Range(stop)] those
    from [0]; nothing when [stop] is not above the start. *)
Theorem Range_default_step :
  (∀ start stop,
     finite_seq (Range start (Some stop) 1) (seqZ start (stop - start))) ∧
  (∀ stop, finite_seq (Range stop None 1) (seqZ 0 stop)).
Proof.
  assert (H : ∀ start stop,
    finite_seq (Iterator Range_next
                  {| self_start := start; self_stop := stop;
                     self_step := 1; self_current := start |})
               (seqZ start (stop - start))).
  { intros start stop.
    destruct (Range_progression
                (Z.to_nat (stop - start))
                {| self_start := start; self_stop := stop;
                   self_step := 1; self_current := start |})
      as (n & Hfin & Hin & Hout); cbn [self_step self_stop self_current] in *;
      [done|lia|lia|].
    assert (Z.of_nat n = Z.max 0 (stop - start)) as Hn.
    { unfold before_stop in Hin, Hout.
      destruct n as [|n].
      - lia.
      - specialize (Hin n). lia. }
    rewrite progression_step_1, Hn in Hfin.
    replace (seqZ start (stop - start))
      with (seqZ start (Z.max 0 (stop - start))); [done|].
    unfold seqZ. by replace (Z.to_nat (Z.max 0 (stop - start)))
      with (Z.to_nat (stop - start)) by lia. }
  split.
  - intros start stop. apply H.
  - intros stop. unfold Range, Range_init.
    pose proof (H 0 stop) as H0. by rewrite Z.sub_0_r in H0.
Qed.

(** X8: a step of zero is not refused, as [range] would refuse it: the
    [Range] never reaches its stop, every pull answers [start], and the
    iterator never signals exhaustion. *)
Theorem Range_zero_step_never_ends (start stop : Z) :
  (∀ fuel n,
     (take_ (S fuel) n (Range start (Some stop) 0)).1 = replicate n start) ∧
  unbounded (Range start (Some stop) 0) ∧
  ¬ signals_exhaustion (Range start (Some stop) 0).
Proof.
  assert (Hr : ∀ self, self_step self = 0 → self_current self = start →
    Range_next self = (Yield start,
      {| self_start := self_start self; self_stop := self_stop self;
         self_step := 0; self_current := start |})).
  { intros self Hstep Hcur. unfold Range_next. rewrite Hstep, Hcur.
    cbn [Z.ltb Z.compare andb orb]. by rewrite Z.add_0_r. }
  assert (Htake : ∀ fuel n self,
    self_step self = 0 → self_current self = start →
    (take_ (S fuel) n (Iterator Range_next self)).1 = replicate n start).
  { intros fuel n. induction n as [|n IH]; intros self Hstep Hcur; [done|].
    rewrite (take_S_yielded _ _ _ start
               (Iterator Range_next
                  {| self_start := self_start self;
                     self_stop := self_stop self;
                     self_step := 0; self_current := start |})).
    - cbn [replicate]. by rewrite IH.
    - rewrite next_S. cbn [resume frame]. by rewrite Hr. }
  assert (Hun : unbounded (Range start (Some stop) 0)).
  { intros n. exists 1%nat. unfold Range.
    by rewrite Htake, length_replicate. }
  split; [|split].
  - intros fuel n. by apply Htake.
  - exact Hun.
  - by apply unbounded_never_exhausts.
Qed.

(** ** [fibonacci_generator] yields the Fibonacci numbers *)

Lemma fib_SS n : fib (S (S n)) = fib n + fib (S n).
Proof. reflexivity. Qed.

Lemma take_fibonacci_from fuel N k :
  (take_ (S fuel) N (Iterator fibonacci_next (fib k, fib (S k)))).1
  = fib <$> seq k N.
Proof.
  revert k. induction N as [|N IH]; intros k; [done|].
  rewrite (take_S_yielded _ _ _ (fib k)
             (Iterator fibonacci_next (fib (S k), fib (S (S k))))).
  - cbn [seq fmap list_fmap]. by rewrite IH.
  - rewrite next_S. cbn [resume frame fibonacci_next]. frames.
    by rewrite fib_SS.
Qed.

(** X9: the [n]-th element pulled from [fibonacci_generator()] is the
    [n]-th Fibonacci number, for every [n]: the first [N] elements are
    [fib 0, ..., fib (N - 1)], starting [0, 1] with each later one the
    sum of the two before it. *)
Theorem fibonacci_generator_yields_fib (fuel N : nat) :
  (take_ (S fuel) N fibonacci_generator).1 = fib <$> seq 0 N.
Proof. apply (take_fibonacci_from fuel N 0). Qed.

(** X10: a generator object keeps its place between pulls: in any
    store, pulling [n] elements from a fresh [fibonacci_generator()] and
    then [m] more from the same object gives the first [n] Fibonacci
    numbers and then the next [m], not the first ones again. *)
Theorem generator_object_continues (σ : gmap nat (iterator Z)) (fuel n m : nat) :
  let '(g, σ1) := create fibonacci_generator σ in
  let '(first, σ2) := take_in (S fuel) n g σ1 in
  let '(more, _) := take_in (S fuel) m g σ2 in
  first = fib <$> seq 0 n ∧ more = fib <$> seq n m.
Proof.
  pose proof (create_lookup fibonacci_generator σ) as Hg.
  destruct (create fibonacci_generator σ) as [g σ1]. cbn [fst snd] in Hg.
  rewrite (take_in_sim _ _ _ _ _ Hg).
  rewrite (take_in_sim _ _ _ _ (take_ (S fuel) n fibonacci_generator).2)
    by apply lookup_insert_eq.
  pose proof (take_add (S fuel) n m fibonacci_generator) as Hadd.
  assert (Hfib : ∀ N,
    (take_ (S fuel) N fibonacci_generator).1 = fib <$> seq 0 N)
    by (intros N; apply (take_fibonacci_from fuel N 0)).
  rewrite !Hfib in *.
  split; [done|].
  rewrite length_fmap, length_seq in Hadd. specialize (Hadd eq_refl).
  rewrite seq_app, fmap_app in Hadd. by apply app_inv_head in Hadd.
Qed.

(** ** [chain] *)

Lemma list_chain_at {A} (iterables : list (list A)) extra :
  list_ (S (length iterables + length (concat iterables) + extra))
        (Iterator chain_next (Suspended iterables))
  = Done (concat iterables).
Proof.
  induction iterables as [|l iterables IH]; [done|].
  induction l as [|x l IHl].
  - cbn [length concat app Nat.add]. rewrite list_S.
    cbn [resume frame chain_next]. frames. exact IH.
  - cbn [length concat app Nat.add] in IHl |- *.
    rewrite Nat.add_succ_r. cbn [Nat.add]. rewrite list_S.
    cbn [resume frame chain_next]. frames. by rewrite IHl.
Qed.

(** X11: draining [chain] over any number of sequences ends normally
    with all their elements, sequence after sequence, each in its own
    order; empty sequences contribute nothing, and with no sequence at
    all the result is empty. *)
Theorem chain_concatenates {A} (iterables : list (list A)) (extra : nat) :
  list_ (S (length iterables + length (concat iterables) + extra))
        (chain iterables)
  = Done (concat iterables).
Proof. unfold chain. apply list_chain_at. Qed.

(** ** [flatten] on every nested list *)










(** ** The accumulator's running totals *)

Lemma sent_floats_cons v x (values : list (option py_number)) :
  to_float v = Some x →
  omap to_float (omap id (Some v :: values))
  = x :: omap to_float (omap id values).
Proof. intros Hx. cbn. by rewrite Hx. Qed.

Lemma send_each_floats (values : list (option py_number)) (total : float) :
  Forall (λ value, ∀ v, value = Some v → is_Some (to_float v)) values →
  send_each 0%float float_add (AtYield total) values
  = ((λ i, foldl PrimFloat.add total
             (omap to_float (omap id (take (S i) values))))
       <$> seq 0 (length values),
     AtYield (foldl PrimFloat.add total (omap to_float (omap id values)))).
Proof.
  intros Hvalues. revert total.
  induction Hvalues as [|value values Hvalue _ IH]; intros total; [done|].
  cbn [send_each send length seq fmap list_fmap].
  destruct value as [v|].
  - destruct (Hvalue v eq_refl) as [x Hx]. unfold float_add at 1.
    rewrite Hx, IH. cbn [take]. rewrite !(sent_floats_cons v x) by done.
    cbn [foldl]. f_equal. f_equal.
    rewrite <- fmap_S_seq, <- list_fmap_compose.
    apply list_fmap_ext. intros _ i _. unfold Basics.compose.
    cbn [take]. by rewrite (sent_floats_cons v x).
  - rewrite IH. cbn [take omap list_omap id]. f_equal. f_equal.
    rewrite <- fmap_S_seq, <- list_fmap_compose.
    apply list_fmap_ext. intros _ i _. by unfold Basics.compose.
Qed.

(** X13: the sends to a started accumulator.  [send(None)] (a plain
    [next]) and the send of a float never raise; the send of an int
    raises [OverflowError] exactly when the int is too large to convert
    to float, which closes the generator, so that every later send
    raises [StopIteration].  As long as no such int is sent, each send
    returns the float total of all the numbers sent so far, and
    [send(None)] returns it unchanged. *)
Theorem accumulator_running_totals :
  (∀ values : list (option py_number),
     Forall (λ value, ∀ v, value = Some v → is_Some (to_float v)) values →
     ∃ g1, produce 0%float float_add accumulator = SendYielded 0%float g1 ∧
       send_each 0%float float_add g1 values
       = ((λ i, foldl PrimFloat.add 0%float
                  (omap to_float (omap id (take (S i) values))))
            <$> seq 0 (length values),
          AtYield (foldl PrimFloat.add 0%float
                     (omap to_float (omap id values))))) ∧
  (∀ total : float,
     send 0%float float_add (AtYield total) None
     = SendYielded total (AtYield total)) ∧
  (∀ total x : float,
     send 0%float float_add (AtYield total) (Some (PyFloat x))
     = SendYielded (total + x)%float (AtYield (total + x)%float)) ∧
  (∀ (total : float) n,
     match float_of_int n with
     | Some x =>
         send 0%float float_add (AtYield total) (Some (PyInt n))
         = SendYielded (total + x)%float (AtYield (total + x)%float)
     | None =>
         send 0%float float_add (AtYield total) (Some (PyInt n))
         = SendRaised (OverflowError "int too large to convert to float")
                      Closed
     end) ∧
  (∀ value,
     send 0%float float_add Closed value = SendStopIteration Closed).
Proof.
  split; [|split; [|split; [|split]]]; try done.
  - intros values Hvalues. exists (AtYield 0%float).
    split; [done|]. by apply send_each_floats.
  - intros total n. cbn [send]. unfold float_add. cbn [to_float].
    by destruct (float_of_int n).
Qed.

Lemma accumulator_running_totals_witness :
  ∃ g1, produce 0%float float_add accumulator = SendYielded 0%float g1 ∧
    (send_each 0%float float_add g1
       [Some (PyInt 10); None; Some (PyInt 20); Some (PyFloat 0.5)]).1
    = [10; 10; 30; 30.5]%float.
Proof.
  destruct (proj1 accumulator_running_totals
              [Some (PyInt 10); None; Some (PyInt 20); Some (PyFloat 0.5)])
    as (g1 & Hstart & Heach).
  - repeat (apply Forall_cons_2;
      [ intros v Hv;
        first [ discriminate
              | injection Hv as <-; apply (bool_decide_unpack _);
                vm_compute; exact I ] |]).
    apply Forall_nil_2.
  - exists g1. split; [exact Hstart|]. rewrite Heach. by vm_compute.
Defined.

(** ** Splitting lines *)

Lemma split_comma_not_nil s : split_comma s ≠ [].
Proof.
  destruct s as [|c s]; [done|]. cbn [split_comma].
  destruct (Ascii.eqb c ","); [done|]. by destruct (split_comma s).
Qed.

Lemma join_comma_cons field fields :
  fields ≠ [] →
  join_comma (field :: fields) = field +:+ String "," (join_comma fields).
Proof. by destruct fields. Qed.

Lemma join_split_comma s : join_comma (split_comma s) = s.
Proof.
  induction s as [|c s IH]; [done|]. cbn [split_comma].
  destruct (Ascii.eqb_spec c ",") as [->|Hc].
  - rewrite join_comma_cons by apply split_comma_not_nil.
    cbn. by rewrite IH.
  - pose proof (split_comma_not_nil s) as Hne.
    destruct (split_comma s) as [|field fields]; [done|].
    destruct fields as [|field' fields].
    + cbn in IH |- *. by rewrite IH.
    + rewrite join_comma_cons in IH |- * by done.
      by rewrite <- IH.
Qed.

Lemma split_comma_length s : length (split_comma s) = S (comma_count s).
Proof.
  induction s as [|c s IH]; [done|]. cbn [split_comma comma_count].
  destruct (Ascii.eqb c ","); cbn [length Nat.add]; [by rewrite IH|].
  pose proof (split_comma_not_nil s) as Hne.
  destruct (split_comma s) as [|field fields]; [done|]. exact IH.
Qed.

Lemma split_comma_no_comma s :
  Forall (λ field, comma_count field = 0%nat) (split_comma s).
Proof.
  induction s as [|c s IH]; [by repeat constructor|]. cbn [split_comma].
  destruct (Ascii.eqb c ",") eqn:Hc; [by constructor|].
  destruct (split_comma s) as [|field fields]; [repeat constructor|].
  - cbn. by rewrite Hc.
  - apply Forall_cons in IH as [Hf Hfs]. constructor; [|done].
    cbn. by rewrite Hc.
Qed.

(** X14: [split(',')] as the CSV stage uses it: a line with [k] commas
    has [k + 1] fields, so an empty line still has one (empty) field;
    no field contains a comma; and joining the fields with commas gives
    the line back. *)
Theorem split_comma_fields (line : string) :
  length (split_comma line) = S (comma_count line) ∧
  Forall (λ field, comma_count field = 0%nat) (split_comma line) ∧
  join_comma (split_comma line) = line.
Proof.
  split; [apply split_comma_length|].
  split; [apply split_comma_no_comma | apply join_split_comma].
Qed.

(** ** The record of a CSV row, whatever the header *)

Lemma dict_from_lookup_last {V} (header : list string) (values : list V)
    (m : gmap string V) name v :
  foldl (λ d kv, <[kv.1 := kv.2]> d) m (zip header values) !! name = Some v
  ↔ (∃ i, header !! i = Some name ∧ values !! i = Some v ∧
          ∀ j, (i < j)%nat → (j < length values)%nat →
               header !! j ≠ Some name)
    ∨ ((∀ j, (j < length values)%nat → header !! j ≠ Some name)
       ∧ m !! name = Some v).
Proof.
  revert values m.
  induction header as [|h hs IH]; intros values m.
  { cbn. split; [intros Hm; right; by split|].
    intros [(i & Hi & _)|[_ Hm]]; [by destruct i|done]. }
  destruct values as [|w vs].
  { cbn. split; [intros Hm; right; split; [intros j Hj; lia|done]|].
    intros [(i & _ & Hi & _)|[_ Hm]]; [by destruct i|done]. }
  cbn [zip zip_with foldl fst snd length]. rewrite IH. split.
  - intros [(i & Hi & Hv & Hlast)|[Hnone Hm]].
    + left. exists (S i). split; [done|]. split; [done|].
      intros [|j] Hij Hj; [lia|]. cbn. apply Hlast; lia.
    + destruct (decide (h = name)) as [->|Hne].
      * rewrite lookup_insert_eq in Hm. injection Hm as ->.
        left. exists 0%nat. split; [done|]. split; [done|].
        intros [|j] Hij Hj; [lia|]. cbn. apply Hnone. lia.
      * rewrite lookup_insert_ne in Hm by done.
        right. split; [|done].
        intros [|j] Hj; cbn; [congruence|]. apply Hnone. lia.
  - intros [(i & Hi & Hv & Hlast)|[Hnone Hm]].
    + destruct i as [|i].
      * cbn in Hi, Hv. injection Hi as ->. injection Hv as ->.
        right. split.
        -- intros j Hj. apply (Hlast (S j)); lia.
        -- by rewrite lookup_insert_eq.
      * left. exists i. split; [done|]. split; [done|].
        intros j Hij Hj. apply (Hlast (S j)); lia.
    + right. split.
      * intros j Hj. apply (Hnone (S j)). lia.
      * rewrite lookup_insert_ne; [done|].
        intros ->. by apply (Hnone 0%nat); [lia|].
Qed.

(** X15: the record [dict(zip(header, values))] of a row, whatever the
    header: a name maps to a value exactly when the value stands in the
    line at a position where the header has that name, and the header
    has it at no later position that the line reaches.  So every key is
    a header name, every value a field of the line, and of a repeated
    name the last occurrence wins. *)
Theorem csv_record_lookup (header values : list string) (name v : string) :
  dict (zip header values) !! name = Some v
  ↔ ∃ i, header !! i = Some name ∧ values !! i = Some v ∧
         ∀ j, (i < j)%nat → (j < length values)%nat →
              header !! j ≠ Some name.
Proof.
  unfold dict. rewrite dict_from_lookup_last. split.
  - intros [H|[_ H]]; [done|]. by rewrite lookup_empty in H.
  - intros H. by left.
Qed.

(** ** The two stages of the demonstration pipeline commute *)

Lemma square_even (num : Z) : (num ^ 2 `mod` 2 =? 0) = (num `mod` 2 =? 0).
Proof.
  rewrite !Zmod_even, Z.even_pow by lia. by destruct (Z.even num).
Qed.

Lemma filter_ext_bool {A} (p q : A → bool) (l : list A) :
  (∀ x, p x = q x) → List.filter p l = List.filter q l.
Proof.
  intros Hpq. induction l as [|x l IH]; [done|]. cbn. by rewrite Hpq, IH.
Qed.

(** X16: a square is even exactly when the number is, so [filter_even]
    and [square] can be applied in either order: over any upstream, and
    with the same bound, [filter_even(square(numbers))] drains like
    [square(filter_even(numbers))]. *)
Theorem filter_even_square_commute (numbers : iterator Z) (fuel : nat) :
  list_ fuel (filter_even (square numbers))
  = list_ fuel (square (filter_even numbers)).
Proof.
  unfold filter_even, square.
  rewrite list_filter_stage, !list_map_stage, list_filter_stage,
    !drained_map_compose.
  apply drained_map_ext. intros l. unfold Basics.compose.
  rewrite filter_map_swap. f_equal.
  apply filter_ext_bool. intros num. apply square_even.
Qed.

(** ** Draining an unbounded iterator *)

Lemma list_ends {A} fuel (it : iterator A) :
  list_ fuel it ≠ Diverged → ends fuel it.
Proof.
  revert it. induction fuel as [|fuel IH]; intros it; [done|].
  rewrite list_S, ends_S.
  destruct (resume it (frame it)) as [[a| | |e] s]; try done.
  - intros Hl. apply IH. by destruct (list_ fuel (at_frame it s)).
  - apply IH.
Qed.

Lemma unbounded_list_diverges {A} (it : iterator A) fuel :
  unbounded it → list_ fuel it = Diverged.
Proof.
  intros Hun. destruct (list_ fuel it) as [l|e|] eqn:Hl; [| |done].
  - exfalso. assert (ends fuel it) as Hends by (apply list_ends; congruence).
    destruct (proj1 (unbounded_trace it) Hun (S fuel)) as [m Hm].
    pose proof (ends_bounds_trace _ _ Hends m). lia.
  - exfalso. assert (ends fuel it) as Hends by (apply list_ends; congruence).
    destruct (proj1 (unbounded_trace it) Hun (S fuel)) as [m Hm].
    pose proof (ends_bounds_trace _ _ Hends m). lia.
Qed.

(** X17: [list] on an unbounded iterator never returns, neither with a
    result nor with an error, whatever bound it is given; so it is for
    [fibonacci_generator()] and for [square] and [filter_even] over
    it. *)
Theorem list_of_unbounded_never_returns :
  (∀ {A} (it : iterator A) fuel, unbounded it → list_ fuel it = Diverged) ∧
  (∀ fuel, list_ fuel fibonacci_generator = Diverged) ∧
  (∀ fuel, list_ fuel (square fibonacci_generator) = Diverged) ∧
  (∀ fuel, list_ fuel (filter_even fibonacci_generator) = Diverged).
Proof.
  split; [|split; [|split]].
  - intros A it fuel. apply unbounded_list_diverges.
  - intros fuel. apply unbounded_list_diverges, fibonacci_unbounded.
  - intros fuel. apply unbounded_list_diverges, map_unbounded,
      fibonacci_unbounded.
  - intros fuel. apply unbounded_list_diverges, filter_unbounded.
    intros n. exists 1%nat, (3 * n)%nat. by apply fibonacci_many_even.
Qed.

Lemma list_of_unbounded_never_returns_witness :
  list_ 1000 (Range 1 (Some 10) 0) = Diverged.
Proof.
  apply (proj1 list_of_unbounded_never_returns).
  intros n. exists 1%nat. unfold Range.
  by apply (take_constant Range_next (Range_init 1 (Some 10) 0) 1).
Defined.
